(** * fmfug: the username pattern interpreter and the generation pipeline

    A shallow embedding of [fmfug.py]: the name parser, the three regular
    expressions of [UsernameGenerator], [_process_format], [apply_format],
    [generate_from_name], [process_single_task] and the controller loop of
    [run_processing].

    Conventions of the embedding.
    - A Python [str] is a [string]; a character is an [ascii] read as an
      ASCII code point (codes below 128).  Character classes and case
      mappings follow Python on that range; codes from 128 on are treated
      as caseless symbols that are neither digits nor spaces.
    - A Python [int] that counts something is a [nat] (no overflow either
      side); [int(s)] is the value of the numeral whatever its length.
    - A value that can be [None] or a [str] is an [option string].
    - A raised exception is the left side of a sum ([result]).
    - Writing to a file or to a console stream appends to a log and does
      not fail. *)

From Stdlib Require Import String Ascii List Arith Bool Lia Permutation.
From Stdlib Require Import DecimalString ZArith.
Import ListNotations.
Local Open Scope string_scope.
Local Open Scope list_scope.
Local Open Scope nat_scope.

(** ** Python strings *)

Module PyStr.

Definition code (c : ascii) : nat := nat_of_ascii c.

Definition between (lo hi : nat) (c : ascii) : bool :=
  (lo <=? code c) && (code c <=? hi).

(** [str.isspace] on one character: TAB..CR, FS..US and the space. *)
Definition isspace_char (c : ascii) : bool :=
  between 9 13 c || between 28 32 c.

(** [\d] on the ASCII range. *)
Definition isdigit_char (c : ascii) : bool := between 48 57 c.

Definition isupper_char (c : ascii) : bool := between 65 90 c.
Definition islower_char (c : ascii) : bool := between 97 122 c.
Definition isalpha_char (c : ascii) : bool := isupper_char c || islower_char c.

Definition lower_char (c : ascii) : ascii :=
  if isupper_char c then ascii_of_nat (code c + 32) else c.
Definition upper_char (c : ascii) : ascii :=
  if islower_char c then ascii_of_nat (code c - 32) else c.

Fixpoint smap (f : ascii -> ascii) (s : string) : string :=
  match s with
  | EmptyString => EmptyString
  | String c s' => String (f c) (smap f s')
  end.

Fixpoint sall (p : ascii -> bool) (s : string) : bool :=
  match s with
  | EmptyString => true
  | String c s' => p c && sall p s'
  end.

Fixpoint sany (p : ascii -> bool) (s : string) : bool :=
  match s with
  | EmptyString => false
  | String c s' => p c || sany p s'
  end.

(** Truth value of a [str]: non-empty. *)
Definition nonempty (s : string) : bool :=
  match s with EmptyString => false | String _ _ => true end.

Definition lower (s : string) : string := smap lower_char s.
Definition upper (s : string) : string := smap upper_char s.

(** [str.isupper]: at least one cased character and no lowercase one. *)
Definition isupper (s : string) : bool :=
  sany isupper_char s && negb (sany islower_char s).

(** [str.isspace]: non-empty and whitespace only. *)
Definition isspace (s : string) : bool := nonempty s && sall isspace_char s.

(** [str.capitalize]: first character upper-cased, the rest lower-cased. *)
Definition capitalize (s : string) : string :=
  match s with
  | EmptyString => EmptyString
  | String c s' => String (upper_char c) (lower s')
  end.

(** [s[:n]]. *)
Fixpoint take (n : nat) (s : string) : string :=
  match n, s with
  | S n', String c s' => String c (take n' s')
  | _, _ => EmptyString
  end.

(** [sep.join(l)]. *)
Fixpoint join (sep : string) (l : list string) : string :=
  match l with
  | [] => EmptyString
  | [x] => x
  | x :: l' => (x ++ sep ++ join sep l')%string
  end.

(** [s.lstrip()]. *)
Fixpoint lstrip (s : string) : string :=
  match s with
  | EmptyString => EmptyString
  | String c s' => if isspace_char c then lstrip s' else s
  end.

(** [s.rstrip()]: a character is dropped when it is a space and all that
    follows it has been dropped. *)
Fixpoint rstrip (s : string) : string :=
  match s with
  | EmptyString => EmptyString
  | String c s' =>
      match rstrip s' with
      | EmptyString => if isspace_char c then EmptyString else String c EmptyString
      | r => String c r
      end
  end.

Definition strip (s : string) : string := rstrip (lstrip s).

(** [s.split()] without argument: the maximal runs of non-space
    characters.  The head of the result of the recursive call is the
    word that starts at the next character, when there is one. *)
Fixpoint split (s : string) : list string :=
  match s with
  | EmptyString => []
  | String c s' =>
      if isspace_char c then split s'
      else
        match s' with
        | EmptyString => [String c EmptyString]
        | String c' _ =>
            if isspace_char c' then String c EmptyString :: split s'
            else
              match split s' with
              | w :: ws => String c w :: ws
              | [] => [String c EmptyString]
              end
        end
  end.

(** [int(s)] on a string of decimal digits. *)
Definition digit_val (c : ascii) : nat := code c - 48.

Fixpoint int_acc (acc : nat) (s : string) : nat :=
  match s with
  | EmptyString => acc
  | String c s' => int_acc (10 * acc + digit_val c) s'
  end.

Definition int (s : string) : nat := int_acc 0 s.

(** [str(i)] for a natural number: its decimal numeral. *)
Definition str (i : nat) : string :=
  NilZero.string_of_uint (Nat.to_uint i).

End PyStr.

Import PyStr.

(** ** The regular expressions of [UsernameGenerator.__init__]

    None of the four patterns matches the empty string, so a scan is: at
    each position try the pattern; on a match, jump behind it; otherwise
    move on by one character.  The scanning functions below are structural
    on the subject: after a match of [len] characters at the current
    position, the next [len - 1] characters are skipped. *)

Module Re.

(** [p] is a prefix of [s]: what follows it. *)
Fixpoint after_prefix (p s : string) : option string :=
  match p, s with
  | EmptyString, _ => Some s
  | String a p', String b s' =>
      if Ascii.eqb a b then after_prefix p' s' else None
  | String _ _, EmptyString => None
  end.

(** The alternation [(first|middle|last)] at the head of [s], tried in
    that order: the keyword and what follows it. *)
Definition keyword_at (s : string) : option (string * string) :=
  match after_prefix "first" s with
  | Some r => Some ("first", r)
  | None =>
      match after_prefix "middle" s with
      | Some r => Some ("middle", r)
      | None =>
          match after_prefix "last" s with
          | Some r => Some ("last", r)
          | None => None
          end
      end
  end.

(** The longest run of digits at the head of [s], and what follows it. *)
Fixpoint span_digits (s : string) : string * string :=
  match s with
  | String c s' =>
      if isdigit_char c then
        let (ds, r) := span_digits s' in (String c ds, r)
      else (EmptyString, s)
  | EmptyString => (EmptyString, EmptyString)
  end.

(** [\[(\d+)\]] at the head of [s]: the digits and what follows.  The
    digits are the longest run: with a shorter one the next character
    is a digit, not the closing bracket. *)
Definition bracket_at (s : string) : option (string * string) :=
  match s with
  | String c s1 =>
      if Ascii.eqb c "[" then
        let (ds, r) := span_digits s1 in
        match r with
        | String c' r' =>
            if Ascii.eqb c' "]" && nonempty ds then Some (ds, r') else None
        | EmptyString => None
        end
      else None
  | EmptyString => None
  end.

(** [re_bracket = (first|middle|last)\[(\d+)\]] at the head of [s]:
    groups 1 and 2 and the length of the match. *)
Definition re_bracket_at (s : string) : option (string * string * nat) :=
  match keyword_at s with
  | Some (kw, r) =>
      match bracket_at r with
      | Some (ds, _) => Some (kw, ds, String.length kw + String.length ds + 2)
      | None => None
      end
  | None => None
  end.

(** [re_keywords = (first|middle|last)] at the head of [s]: group 1 and
    the length of the match. *)
Definition re_keywords_at (s : string) : option (string * nat) :=
  match keyword_at s with
  | Some (kw, _) => Some (kw, String.length kw)
  | None => None
  end.

(** [re_separators = ([._-])] at the head of [s]. *)
Definition re_separators_at (s : string) : option (string * nat) :=
  match s with
  | String c _ =>
      if Ascii.eqb c "." || Ascii.eqb c "_" || Ascii.eqb c "-"
      then Some (String c EmptyString, 1) else None
  | EmptyString => None
  end.

(** [pattern.sub(repl, s)]: every match, leftmost first and without
    overlap, is replaced by [repl] of its groups. *)
Fixpoint sub_from {M : Type} (at_ : string -> option (M * nat))
    (repl : M -> string) (skip : nat) (s : string) : string :=
  match s with
  | EmptyString => EmptyString
  | String c s' =>
      match skip with
      | S k => sub_from at_ repl k s'
      | 0 =>
          match at_ s with
          | Some (m, len) => (repl m ++ sub_from at_ repl (len - 1) s')%string
          | None => String c (sub_from at_ repl 0 s')
          end
      end
  end.

Definition sub {M : Type} (at_ : string -> option (M * nat))
    (repl : M -> string) (s : string) : string :=
  sub_from at_ repl 0 s.

(** [pattern.split(s)] for a pattern with one capturing group: the text
    before the first match, then for each match its group and the text
    up to the next match (or to the end). *)
Fixpoint split_from (at_ : string -> option (string * nat))
    (skip : nat) (s : string) : list string :=
  match s with
  | EmptyString => [EmptyString]
  | String c s' =>
      match skip with
      | S k => split_from at_ k s'
      | 0 =>
          match at_ s with
          | Some (g, len) => EmptyString :: g :: split_from at_ (len - 1) s'
          | None =>
              match split_from at_ 0 s' with
              | h :: t => String c h :: t
              | [] => [String c EmptyString]
              end
          end
      end
  end.

Definition split (at_ : string -> option (string * nat)) (s : string)
    : list string :=
  split_from at_ 0 s.

(** [$] without MULTILINE: the end of the string, or just before a
    newline that ends the string. *)
Definition at_dollar (s : string) : bool :=
  match s with
  | EmptyString => true
  | String c EmptyString => Ascii.eqb c (ascii_of_nat 10)
  | _ => false
  end.

(** [(\d+)$] at the head of [s]: group 4.  The digits are the longest
    run: behind a shorter one stands a digit, where [$] fails. *)
Definition digits_dollar_at (s : string) : option string :=
  let (ds, r) := span_digits s in
  if nonempty ds && at_dollar r then Some ds else None.

(** [re_numeric.match(s)] for
    [re_numeric = (first|middle|last)(\[(\d+)\])?(\d+)$]: groups 1, 3
    and 4.  The optional bracket group is greedy: it is tried first and
    given up when the rest does not match behind it. *)
Definition re_numeric_match (s : string)
    : option (string * option string * string) :=
  match keyword_at s with
  | None => None
  | Some (kw, r) =>
      let without := match digits_dollar_at r with
                     | Some num => Some (kw, None, num)
                     | None => None
                     end in
      match bracket_at r with
      | Some (b, t) =>
          match digits_dollar_at t with
          | Some num => Some (kw, Some b, num)
          | None => without
          end
      | None => without
      end
  end.

End Re.

(** ** [UsernameGenerator] *)

(** Exceptions raised by the modelled code. *)
Inductive exn : Type :=
| AttributeError   (* a method looked up on [None] *)
| ValueError.      (* [ThreadPoolExecutor(max_workers=0)] *)

Definition result (A : Type) : Type := (exn + A)%type.

(** The dictionary built by [parse_name]: always the three keys [first],
    [middle] and [last]. *)
Record name_parts : Type := mk_name_parts {
  first : string;
  middle : string;
  last : string
}.

(** [d[key]] for [key in d], as an option. *)
Definition lookup (d : name_parts) (key : string) : option string :=
  if String.eqb key "first" then Some (first d)
  else if String.eqb key "middle" then Some (middle d)
  else if String.eqb key "last" then Some (last d)
  else None.

(** [d.get(key, '')]. *)
Definition get (d : name_parts) (key : string) : string :=
  match lookup d key with Some v => v | None => EmptyString end.

(** The configuration held by a generator object after [__init__]. *)
Record UsernameGenerator : Type := mk_generator {
  case_sensitive : bool;
  formats : list string
}.

Definition DEFAULT_FORMATS : list string :=
  [ "first"; "last"; "firstlast"; "lastfirst";
    "first.last"; "last.first"; "first-last"; "last-first";
    "first_last"; "last_first"; "first[1].last"; "last[1].first";
    "firstlast[1]"; "first[1]last"; "last[1]first"; "lastfirst[1]";
    "first[1]last[1]"; "last[1]first[1]" ].

(** [__init__]: [formats or DEFAULT_FORMATS] takes the default for [None]
    and for the empty list; [case_sensitive] defaults to [True]. *)
Definition init (cs : option bool) (fmts : option (list string))
    : UsernameGenerator :=
  {| case_sensitive := match cs with Some b => b | None => true end;
     formats := match fmts with
                | Some (f :: l) => f :: l
                | Some [] | None => DEFAULT_FORMATS
                end |}.

Definition parse_name (name : string) : name_parts :=
  let parts := PyStr.split (strip name) in
  {| first := if 0 <? length parts then nth 0 parts EmptyString else EmptyString;
     middle := if 2 <? length parts then nth 1 parts EmptyString else EmptyString;
     last := if 1 <? length parts then List.last parts EmptyString else EmptyString |}.

Section Generator.

Variable self : UsernameGenerator.

(** The closure [replace_with_length] of [_process_format]. *)
Definition replace_with_length (np : name_parts) (m : string * string)
    : string :=
  let (part, length) := m in
  let value := get np part in
  if nonempty value then take (int length) value else EmptyString.

(** First pass of [_process_format]: [re_bracket.sub]. *)
Definition bracket_pass (format_str : string) (np : name_parts) : string :=
  Re.sub Re.re_bracket_at (replace_with_length np) format_str.

(** Second pass: [re_keywords.split], each part that is a key of
    [replacements] replaced, and the parts joined. *)
Definition keyword_pass (text : string) (np : name_parts) : string :=
  let parts_arr := Re.split Re.re_keywords_at text in
  let final_parts :=
    map (fun part => match lookup np part with
                     | Some v => v
                     | None => part
                     end) parts_arr in
  join EmptyString final_parts.

(** The capitalising branch: [re_separators.split] and [capitalize] on
    each part that starts with a letter. *)
Definition capitalize_parts (text : string) : string :=
  join EmptyString
    (map (fun p => match p with
                   | String c _ => if isalpha_char c then capitalize p else p
                   | EmptyString => p
                   end)
         (Re.split Re.re_separators_at text)).

Definition case_pass (format_str text : string) : string :=
  if nonempty text && negb (case_sensitive self) then lower text
  else if nonempty text then
    match format_str with
    | String c0 _ =>
        if isupper_char c0 && (1 <? String.length format_str) then
          if isupper format_str then upper text
          else capitalize_parts text
        else text
    | EmptyString => text
    end
  else text.

Definition _process_format (format_str : string) (np : name_parts)
    : option string :=
  let result := bracket_pass format_str np in
  let result := keyword_pass result np in
  let result := case_pass format_str result in
  if nonempty result && negb (isspace result) then Some result else None.

(** The generator [apply_format], as the list of what it yields. *)
Definition apply_format (format_str : string) (np : name_parts)
    : list string :=
  match Re.re_numeric_match format_str with
  | Some (base_format, _, num) =>
      match _process_format base_format np with
      | Some base_username =>
          map (fun i => (base_username ++ str i)%string) (seq 0 (int num + 1))
      | None => []
      end
  | None =>
      match _process_format format_str np with
      | Some username => [username]
      | None => []
      end
  end.

(** [generate_from_name]: [name.strip()] raises on [None]. *)
Definition generate_from_name (name : option string)
    : result (list string) :=
  match name with
  | None => inl AttributeError
  | Some name =>
      let name := strip name in
      if negb (nonempty name) then inr []
      else
        let np := parse_name name in
        if negb (nonempty (first np)) then inr []
        else inr (flat_map (fun format_pattern => apply_format format_pattern np)
                           (formats self))
  end.

(** Truth value of a value that is [None] or a [str]. *)
Definition truthy (v : option string) : bool :=
  match v with Some s => nonempty s | None => false end.

(** [process_single_task]: the argument is the triple [(name, fn, ln)]. *)
Definition process_single_task
    (args : option string * option string * option string)
    : result (list string) :=
  let '(name, fn, ln) := args in
  let full_name :=
    match fn, ln with
    | Some f, Some l =>
        if nonempty f && nonempty l then Some (f ++ " " ++ l)%string else name
    | _, _ => name
    end in
  generate_from_name full_name.

End Generator.

(** ** The pipeline: [run_processing]

    The controller is sequential: it pulls a chunk from the source, submits
    one task per item, consumes the futures as they complete, and only then
    pulls the next chunk.  What the worker threads decide is the order in
    which [as_completed] yields the futures of a chunk; that order is a
    parameter of the model.  Writing to the file, to the standard output and
    to the standard error is modelled as appending to a log and does not
    fail. *)

(** An item of the name source: a line of the input file, or a pair of the
    product of first names and last names. *)
Inductive WorkItem : Type :=
| Name (name : string)
| Pair (fn ln : string).

(** The closure [prepare_args]. *)
Definition prepare_args (item : WorkItem)
    : option string * option string * option string :=
  match item with
  | Pair fn ln => (None, Some fn, Some ln)
  | Name name => (Some name, None, None)
  end.

Definition WRITE_BUFFER_SIZE : nat := 1000.

Definition newline : string := String (ascii_of_nat 10) EmptyString.

(** [batch_write]: the file handle is the list of the strings written to it
    so far, oldest first; [None] stands for no handle. *)
Definition batch_write (file_handle : option (list string))
    (buffer : list string) : option (list string) :=
  match buffer, file_handle with
  | [], _ => file_handle
  | _, None => file_handle
  | _, Some writes => Some (writes ++ [(join newline buffer ++ newline)%string])
  end.

(** The class bound to the name [tqdm]: the class of the tqdm library when
    it is installed, the fallback class of the source otherwise.  The two
    differ on a bar created with [disable=True]: the library's [update]
    returns at once and leaves the counter as it is; the fallback's
    [update] adds to the counter all the same. *)
Class Tqdm : Type := { honours_disable : bool }.

#[export] Instance tqdm_library : Tqdm := {| honours_disable := true |}.

Definition tqdm_fallback : Tqdm := {| honours_disable := false |}.

(** [pbar.update(1)] on a bar created with the given [disable]: the new
    value of its counter. *)
Definition pbar_update {bar : Tqdm} (disable : bool) (n : nat) : nat :=
  if honours_disable && disable then n else n + 1.

(** [show_bar = output_file is not None and output_file != sys.stdout].  A
    handle, when one is given, is an open file other than [sys.stdout]:
    [main] passes nothing else. *)
Definition show_bar (output_file : option (list string)) : bool :=
  match output_file with
  | Some _ => true
  | None => false
  end.

(** The variables the body of the collecting loop reads and writes. *)
Record vars : Type := mk_vars {
  output_file : option (list string);   (* the handle and what was written *)
  output_buffer : list string;
  stdout : list string;                 (* one entry per [print] *)
  stderr : list (WorkItem * exn);       (* one entry per error message *)
  total_generated : nat;
  pbar_n : nat;                         (* the counter of the progress bar *)
  pbar_disable : bool                   (* the bar was created disabled *)
}.

(** The control state of the controller. *)
Record state : Type := mk_state {
  iterator : list WorkItem;    (* the items not yet pulled from the source *)
  futures : list WorkItem;     (* pulled and submitted, result not yet consumed;
                                  in the order [as_completed] yields them *)
  collected : list WorkItem;   (* history: the items whose result was consumed *)
  round : nat;                 (* history: the number of chunks pulled *)
  finished : bool;             (* the loop was left and the rest written *)
  locals : vars
}.

Section Pipeline.

Context {bar : Tqdm}.

Variable generator : UsernameGenerator.
Variable workers : nat.

(** The order in which the futures of the chunk pulled in a given round
    complete. *)
Variable as_completed : nat -> list WorkItem -> list WorkItem.

Definition CHUNK_SIZE : nat := workers * 200.

(** What [future.result()] returns or raises for the task of [item]. *)
Definition task (item : WorkItem) : result (list string) :=
  process_single_task generator (prepare_args item).

(** One turn of [for future in as_completed(futures)]: the [try] block,
    the handler and the [finally] clause. *)
Definition collect (v : vars) (item : WorkItem) : vars :=
  let v' :=
    match task item with
    | inr usernames =>
        let total := total_generated v + length usernames in
        match output_file v with
        | Some _ =>
            let buffer := output_buffer v ++ usernames in
            if WRITE_BUFFER_SIZE <=? length buffer then
              {| output_file := batch_write (output_file v) buffer;
                 output_buffer := [];
                 stdout := stdout v; stderr := stderr v;
                 total_generated := total; pbar_n := pbar_n v;
                 pbar_disable := pbar_disable v |}
            else
              {| output_file := output_file v;
                 output_buffer := buffer;
                 stdout := stdout v; stderr := stderr v;
                 total_generated := total; pbar_n := pbar_n v;
                 pbar_disable := pbar_disable v |}
        | None =>
            {| output_file := output_file v;
               output_buffer := output_buffer v;
               stdout := stdout v ++ usernames; stderr := stderr v;
               total_generated := total; pbar_n := pbar_n v;
               pbar_disable := pbar_disable v |}
        end
    | inl e =>
        {| output_file := output_file v;
           output_buffer := output_buffer v;
           stdout := stdout v; stderr := stderr v ++ [(item, e)];
           total_generated := total_generated v; pbar_n := pbar_n v;
           pbar_disable := pbar_disable v |}
    end in
  {| output_file := output_file v'; output_buffer := output_buffer v';
     stdout := stdout v'; stderr := stderr v';
     total_generated := total_generated v';
     pbar_n := pbar_update (pbar_disable v') (pbar_n v');
     pbar_disable := pbar_disable v' |}.

(** Step 4 of [run_processing]: the rest of the buffer is written; the
    variable [output_buffer] is not rebound. *)
Definition write_rest (v : vars) : vars :=
  match output_file v, output_buffer v with
  | Some _, _ :: _ =>
      {| output_file := batch_write (output_file v) (output_buffer v);
         output_buffer := output_buffer v;
         stdout := stdout v; stderr := stderr v;
         total_generated := total_generated v; pbar_n := pbar_n v;
         pbar_disable := pbar_disable v |}
  | _, _ => v
  end.

(** One action of the controller.
    - A future of the current chunk has completed: its result is consumed.
    - No future is left: the next chunk is pulled with [islice] and its
      items are submitted; an empty chunk leaves the loop, and the rest
      of the buffer is written.
    - After that nothing changes any more. *)
Definition step (s : state) : state :=
  if finished s then s
  else
    match futures s with
    | item :: rest =>
        {| iterator := iterator s; futures := rest;
           collected := collected s ++ [item]; round := round s;
           finished := false; locals := collect (locals s) item |}
    | [] =>
        match firstn CHUNK_SIZE (iterator s) with
        | [] =>
            {| iterator := iterator s; futures := [];
               collected := collected s; round := round s;
               finished := true; locals := write_rest (locals s) |}
        | chunk =>
            {| iterator := skipn CHUNK_SIZE (iterator s);
               futures := as_completed (round s) chunk;
               collected := collected s; round := S (round s);
               finished := false; locals := locals s |}
        end
    end.

Definition init_vars (output_file : option (list string)) : vars :=
  {| output_file := output_file; output_buffer := [];
     stdout := []; stderr := []; total_generated := 0; pbar_n := 0;
     pbar_disable := negb (show_bar output_file) |}.

Definition init_state (name_iterator : list WorkItem)
    (output_file : option (list string)) : state :=
  {| iterator := name_iterator; futures := []; collected := []; round := 0;
     finished := false; locals := init_vars output_file |}.

(** The state after [n] actions. *)
Definition run (name_iterator : list WorkItem)
    (output_file : option (list string)) (n : nat) : state :=
  Nat.iter n step (init_state name_iterator output_file).

(** A number of actions after which the run has ended: one per item
    consumed, at most one pull per item, and the final write. *)
Definition enough (name_iterator : list WorkItem) : nat :=
  2 * length name_iterator + 1.

Definition final_state (name_iterator : list WorkItem)
    (output_file : option (list string)) : state :=
  run name_iterator output_file (enough name_iterator).

(** [run_processing]: the executor refuses [max_workers = 0]; otherwise
    the function returns [total_generated]. *)
Definition run_processing (name_iterator : list WorkItem)
    (output_file : option (list string)) : result nat :=
  if workers =? 0 then inl ValueError
  else inr (total_generated (locals (final_state name_iterator output_file))).

End Pipeline.

(** ** Vocabulary of the statements *)

Definition keywords : list string := ["first"; "middle"; "last"].

(** A non-empty string of decimal digits: what [\d+] matches in full. *)
Definition is_digits (s : string) : bool := nonempty s && sall isdigit_char s.

(** The text of the optional group [(\[(\d+)\])?] of [re_numeric]. *)
Definition bracket_text (br : option string) : string :=
  match br with
  | Some b => ("[" ++ b ++ "]")%string
  | None => EmptyString
  end.

(** The value a keyword stands for, as [_process_format] returns it for the
    bare keyword: lower-cased unless the generator is case sensitive. *)
Definition keyword_value (self : UsernameGenerator) (np : name_parts)
    (kw : string) : string :=
  if case_sensitive self then get np kw else lower (get np kw).

(** [base + "0"], ..., [base + str(n)]. *)
Definition numbered (base : string) (n : nat) : list string :=
  map (fun i => (base ++ str i)%string) (seq 0 (n + 1)).

(** No whitespace character occurs in [s]. *)
Definition spaceless (s : string) : bool := negb (sany isspace_char s).

(** A character other than a digit, or the end, stops [\d+]. *)
Definition stops_digits (r : string) : bool :=
  match r with
  | String c _ => negb (isdigit_char c)
  | EmptyString => true
  end.

(** A word of [split]: not empty and free of whitespace. *)
Definition word (w : string) : Prop := nonempty w = true /\ spaceless w = true.

(** The default patterns by construction: two name components [a] and [b],
    each with or without the modifier [[1]], around a separator. *)
Definition modifier (truncated : bool) : string :=
  if truncated then "[1]" else EmptyString.

Definition form (ta tb : bool) (sep : string) (ab : string * string) : string :=
  let (a, b) := ab in (a ++ modifier ta ++ sep ++ b ++ modifier tb)%string.

Definition both_orders : list (string * string) :=
  [("first", "last"); ("last", "first")].

Definition plain_forms : list string :=
  ["first"; "last"] ++ map (form false false "") both_orders.
Definition dotted_forms : list string := map (form false false ".") both_orders.
Definition hyphenated_forms : list string := map (form false false "-") both_orders.
Definition underscored_forms : list string := map (form false false "_") both_orders.
(** The first component cut to one character. *)
Definition truncated_forms : list string :=
  map (form true false ".") both_orders ++ map (form true false "") both_orders.
(** The concatenated forms that end in the digit modifier. *)
Definition trailing_digit_forms : list string :=
  map (form false true "") both_orders ++ map (form true true "") both_orders.

(** What the task of an item contributes: its strings, or nothing when it
    raises. *)
Definition usernames_of (generator : UsernameGenerator) (item : WorkItem)
    : list string :=
  match task generator item with
  | inr usernames => usernames
  | inl _ => []
  end.

(** The error events of a sequence of items: one per item whose task
    raises, with the item and the exception. *)
Definition failures (generator : UsernameGenerator) (items : list WorkItem)
    : list (WorkItem * exn) :=
  flat_map (fun item => match task generator item with
                        | inl e => [(item, e)]
                        | inr _ => []
                        end) items.

(** The string one [batch_write] of a non-empty buffer writes. *)
Definition batch_text (buffer : list string) : string :=
  (join newline buffer ++ newline)%string.

(** The items pulled from the source and not yet collected, counted from
    what is left in the source and what was collected. *)
Definition in_flight (source : list WorkItem) (s : state) : nat :=
  length source - length (iterator s) - length (collected s).

(** The measure that decreases with every action of the controller. *)
Definition remaining_actions (s : state) : nat :=
  2 * length (iterator s) + length (futures s) + (if finished s then 0 else 1).

(** The state of the sink: the strings generated so far are those of the
    batches written, in order, followed by those waiting in the buffer;
    every batch written in the loop has at least [WRITE_BUFFER_SIZE]
    entries and the buffer has fewer. *)
Definition sink_ok (generated : list string) (v : vars) : Prop :=
  exists batches,
    output_file v = Some (map batch_text batches)
    /\ concat batches ++ output_buffer v = generated
    /\ Forall (fun b => WRITE_BUFFER_SIZE <= length b) batches
    /\ length (output_buffer v) < WRITE_BUFFER_SIZE.

(** What holds of every state of a run on [source] with the sink [out]:
    the items pulled so far are a prefix of the source, and those collected
    and those in flight are together the items pulled; the items in flight
    are no more than a chunk; the variables are what the loop body made of
    the items collected, in their order; and when the run is over nothing
    is left in flight or in the source. *)
Definition inv {bar : Tqdm} (generator : UsernameGenerator) (workers : nat)
    (source : list WorkItem) (out : option (list string)) (s : state) : Prop :=
  (exists pulled,
      source = pulled ++ iterator s
      /\ Permutation (collected s ++ futures s) pulled)
  /\ length (futures s) <= workers * 200
  /\ locals s
     = (if finished s then write_rest else fun v => v)
         (fold_left (collect generator) (collected s) (init_vars out))
  /\ (finished s = true -> futures s = [] /\ iterator s = []).

(** A small run used to exercise the statements: one worker, a source with
    a usable line, a pair with an empty component and a usable pair, and
    futures that complete in the reverse of the order of submission. *)
Definition demo_source : list WorkItem :=
  [Name "Ada Lovelace"; Pair "" "Smith"; Pair "Alan" "Turing"].

Definition demo_order (r : nat) (chunk : list WorkItem) : list WorkItem :=
  rev chunk.

(** ** Loading the lists, and [main]

    A text file is the list of its lines as iterating over it yields them;
    a path that does not exist has no file.  The messages of [log] and the
    traceback the handler prints are not modelled; the interrupt handler is
    not reached, the model has no interrupt. *)

Inductive io_exn : Type :=
| FileNotFoundError.

(** [line.startswith('#')]. *)
Definition startswith_hash (line : string) : bool :=
  match line with
  | String c _ => Ascii.eqb c "#"
  | EmptyString => false
  end.

(** [load_names]: the argument is what is found at the path. *)
Definition load_names (file : option (list string)) : io_exn + list string :=
  match file with
  | None => inl FileNotFoundError
  | Some lines =>
      inr (map strip (filter (fun line => nonempty (strip line)) lines))
  end.

Definition load_formats (file : option (list string)) : io_exn + list string :=
  match file with
  | None => inl FileNotFoundError
  | Some lines =>
      inr (map strip
             (filter (fun line => nonempty (strip line)
                                  && negb (startswith_hash line)) lines))
  end.

(** The namespace [parser.parse_args()] returns. *)
Record Args : Type := mk_args {
  arg_input : string;                       (* -i, a path; default users.txt *)
  arg_output : option string;               (* -o *)
  arg_format_list : option (list string);   (* -f, repeatable *)
  arg_formats : option string;              (* --formats, a path *)
  arg_threads : Z;                          (* -t, default 4 *)
  arg_first_names : option string;          (* -fn *)
  arg_last_names : option string;           (* -ln *)
  arg_case_sensitive : bool;                (* -cs, default False *)
  arg_list_formats : bool                   (* -lf *)
}.

(** The name source of [main] and [total_items]: the product of the two
    lists when both are given, the lines of the input file otherwise. *)
Definition main_source (args : Args) (fs : string -> option (list string))
    : io_exn + (list WorkItem * nat) :=
  match arg_first_names args, arg_last_names args with
  | Some first_names, Some last_names =>
      match load_names (fs first_names) with
      | inl e => inl e
      | inr fns =>
          match load_names (fs last_names) with
          | inl e => inl e
          | inr lns =>
              inr (map (fun p => Pair (fst p) (snd p)) (list_prod fns lns),
                   length fns * length lns)
          end
      end
  | _, _ =>
      match load_names (fs (arg_input args)) with
      | inl e => inl e
      | inr names => inr (map Name names, length names)
      end
  end.

(** The patterns [main] passes to the generator: those of the file when
    [--formats] is given, else those of [-f] when there are any, else
    [None]. *)
Definition main_formats (args : Args) (fs : string -> option (list string))
    : io_exn + option (list string) :=
  match arg_formats args with
  | Some path =>
      match load_formats (fs path) with
      | inl e => inl e
      | inr fmts => inr (Some fmts)
      end
  | None =>
      match arg_format_list args with
      | Some (f :: l) => inr (Some (f :: l))
      | Some [] | None => inr None
      end
  end.

(** How a call of [main] ends. *)
Inductive outcome : Type :=
| ListedFormats (printed : string)
    (* [-lf]: one [print], and [main] returns 0 *)
| Crashed (caught : io_exn)
    (* a file is missing: the handler runs, and the [finally] clause then
       reads [out_handle], which was never assigned: [UnboundLocalError]
       leaves [main] *)
| Aborted (caught : exn) (out_handle : option (list string))
    (* [run_processing] raised: the handler runs, the handle is closed,
       [main] returns [None] *)
| Done (generator : UsernameGenerator) (name_iterator : list WorkItem)
       (total_items : nat) (final : state).
    (* the run ended: the handle is closed, [main] returns [None] *)

Definition main {bar : Tqdm} (args : Args)
    (fs : string -> option (list string))
    (as_completed : nat -> list WorkItem -> list WorkItem) : outcome :=
  if arg_list_formats args then ListedFormats (join newline DEFAULT_FORMATS)
  else
    match main_source args fs with
    | inl e => Crashed e
    | inr (name_iterator, total_items) =>
        match main_formats args fs with
        | inl e => Crashed e
        | inr fmts =>
            let out_handle := match arg_output args with
                              | Some _ => Some []
                              | None => None
                              end in
            let generator := init (Some (arg_case_sensitive args)) fmts in
            if (arg_threads args <=? 0)%Z then Aborted ValueError out_handle
            else Done generator name_iterator total_items
                   (final_state generator (Z.to_nat (arg_threads args))
                      as_completed name_iterator out_handle)
        end
    end.

(** The paths [main] reads, in the order it reads them. *)
Definition files_read (args : Args) : list string :=
  match arg_first_names args, arg_last_names args with
  | Some first_names, Some last_names => [first_names; last_names]
  | _, _ => [arg_input args]
  end
  ++ match arg_formats args with
     | Some path => [path]
     | None => []
     end.

(** The text of a list of strings written one per line. *)
Definition lines_text (l : list string) : string :=
  join EmptyString (map (fun u => (u ++ newline)%string) l).

(** Arguments and files for a small combination run. *)
Definition demo_args : Args :=
  {| arg_input := "users.txt"; arg_output := Some "out.txt";
     arg_format_list := Some ["first.last"]; arg_formats := None;
     arg_threads := 4%Z;
     arg_first_names := Some "fn.txt"; arg_last_names := Some "ln.txt";
     arg_case_sensitive := false; arg_list_formats := false |}.

Definition demo_fs (path : string) : option (list string) :=
  if String.eqb path "fn.txt" then Some ["Ada" ++ newline; newline; " Alan " ++ newline]%string
  else if String.eqb path "ln.txt" then Some ["Lovelace" ++ newline; "Turing"]%string
  else None.

(** What holds of the chunks in every state of a run: what is left of the
    source is the source without its first [round] chunks of
    [workers * 200] items, and the last chunk pulled was not empty. *)
Definition chunked (workers : nat) (source : list WorkItem) (s : state)
    : Prop :=
  iterator s = skipn (round s * (workers * 200)) source
  /\ (round s = 0 \/ (round s - 1) * (workers * 200) < length source).

(** A source one item longer than the chunk of one worker, and a generator
    with a single pattern. *)
Definition long_source : list WorkItem := repeat (Name "Ada Lovelace") 201.

Definition one_pattern : UsernameGenerator := mk_generator true ["first"].

(** ** The embedding on examples *)

Example split_example :
  PyStr.split "  Ada   Maria Lovelace " = ["Ada"; "Maria"; "Lovelace"].
Proof. reflexivity. Qed.

Example strip_example : strip "  Ada Lovelace  " = "Ada Lovelace".
Proof. reflexivity. Qed.

Example parse_name_three : 
  parse_name "Ada Maria Augusta Lovelace"
  = {| first := "Ada"; middle := "Maria"; last := "Lovelace" |}.
Proof. reflexivity. Qed.

Example parse_name_one :
  parse_name "Ada" = {| first := "Ada"; middle := ""; last := "" |}.
Proof. reflexivity. Qed.

Example re_keywords_split_example :
  Re.split Re.re_keywords_at "first.last"
  = [""; "first"; "."; "last"; ""].
Proof. reflexivity. Qed.

Example re_separators_split_example :
  Re.split Re.re_separators_at "ada.lovelace_x" = ["ada"; "."; "lovelace"; "_"; "x"].
Proof. reflexivity. Qed.

Example re_numeric_examples :
  Re.re_numeric_match "first5" = Some ("first", None, "5")
  /\ Re.re_numeric_match "last[2]13" = Some ("last", Some "2", "13")
  /\ Re.re_numeric_match "first[2]last" = None
  /\ Re.re_numeric_match "first[4]" = None
  /\ Re.re_numeric_match "firstlast5" = None
  /\ Re.re_numeric_match "xfirst5" = None.
Proof. repeat split. Qed.

Example generate_default :
  generate_from_name (init None None) (Some "Ada Lovelace")
  = inr ["Ada"; "Lovelace"; "AdaLovelace"; "LovelaceAda"; "Ada.Lovelace";
         "Lovelace.Ada"; "Ada-Lovelace"; "Lovelace-Ada"; "Ada_Lovelace";
         "Lovelace_Ada"; "A.Lovelace"; "L.Ada"; "AdaL"; "ALovelace"; "LAda";
         "LovelaceA"; "AL"; "LA"].
Proof. reflexivity. Qed.

Example generate_lowercase :
  generate_from_name (init (Some false) (Some ["first.last"; "last2"]))
    (Some "Ada Lovelace")
  = inr ["ada.lovelace"; "lovelace0"; "lovelace1"; "lovelace2"].
Proof. reflexivity. Qed.

Example capitalize_branch :
  apply_format (init None None) "X-first_last" (parse_name "ada loVElace")
  = ["X-Ada_Lovelace"].
Proof. reflexivity. Qed.

(** ** Facts about strings *)

Lemma append_empty_r (s : string) : (s ++ "")%string = s.
Proof.
  induction s as [|c s IH]; simpl; [reflexivity|now rewrite IH].
Qed.

Lemma append_assoc (a b c : string) :
  ((a ++ b) ++ c)%string = (a ++ (b ++ c))%string.
Proof.
  induction a as [|x a IH]; simpl; [reflexivity|now rewrite IH].
Qed.

Lemma nonempty_lower (s : string) : nonempty (lower s) = nonempty s.
Proof. destruct s; reflexivity. Qed.

Lemma isspace_lower_char (c : ascii) :
  isspace_char (lower_char c) = isspace_char c.
Proof.
  unfold lower_char.
  destruct (isupper_char c) eqn:U; [|reflexivity].
  unfold isupper_char, isspace_char, between, code in *.
  apply andb_true_iff in U. destruct U as [U1 U2].
  apply Nat.leb_le in U1. apply Nat.leb_le in U2.
  rewrite nat_ascii_embedding by lia.
  transitivity false; [|symmetry];
    apply orb_false_iff; split; apply andb_false_iff;
    rewrite !Nat.leb_gt; lia.
Qed.

Lemma spaceless_lower (s : string) : spaceless (lower s) = spaceless s.
Proof.
  unfold spaceless, lower. f_equal.
  induction s as [|c s IH]; simpl; [reflexivity|].
  now rewrite isspace_lower_char, IH.
Qed.

Lemma spaceless_not_isspace (s : string) :
  spaceless s = true -> isspace s = false.
Proof.
  unfold spaceless, isspace. destruct s as [|c s]; simpl; [reflexivity|].
  intros H. apply negb_true_iff, orb_false_iff in H. destruct H as [H _].
  now rewrite H.
Qed.

(** ** Facts about [split], [strip] and [parse_name] *)

Lemma split_words (s : string) : Forall word (PyStr.split s).
Proof.
  induction s as [|c s IH]; simpl; [constructor|].
  destruct (isspace_char c) eqn:Hc; [exact IH|].
  assert (Hw : word (String c EmptyString)).
  { split; [reflexivity|]. unfold spaceless. simpl. now rewrite Hc. }
  destruct s as [|c' s']; [constructor; [exact Hw|constructor]|].
  destruct (isspace_char c') eqn:Hc'; [constructor; assumption|].
  destruct (PyStr.split (String c' s')) as [|w ws]; [constructor; [exact Hw|constructor]|].
  inversion IH as [|? ? [Hn Hs] Hws]; subst.
  constructor; [|exact Hws].
  split; [reflexivity|].
  unfold spaceless in *. simpl. now rewrite Hc.
Qed.

Lemma split_lstrip (s : string) : PyStr.split (lstrip s) = PyStr.split s.
Proof.
  induction s as [|c s IH]; [reflexivity|].
  simpl lstrip. destruct (isspace_char c) eqn:Hc.
  - rewrite IH. simpl. now rewrite Hc.
  - reflexivity.
Qed.

Lemma rstrip_head (c : ascii) (s : string) :
  rstrip (String c s) = EmptyString \/ exists r, rstrip (String c s) = String c r.
Proof.
  simpl. destruct (rstrip s); [destruct (isspace_char c)|]; eauto.
Qed.

Lemma rstrip_empty_head (c : ascii) (s : string) :
  rstrip (String c s) = EmptyString -> isspace_char c = true.
Proof.
  simpl. destruct (rstrip s); [destruct (isspace_char c)|]; congruence.
Qed.

Lemma split_rstrip (s : string) : PyStr.split (rstrip s) = PyStr.split s.
Proof.
  induction s as [|c s IH]; [reflexivity|].
  change (rstrip (String c s)) with
    (match rstrip s with
     | EmptyString => if isspace_char c then EmptyString else String c EmptyString
     | r => String c r
     end).
  destruct (rstrip s) as [|d r] eqn:Hr.
  - simpl in IH.
    destruct (isspace_char c) eqn:Hc; simpl; rewrite Hc; [exact IH|].
    destruct s as [|c' s']; [reflexivity|].
    rewrite (rstrip_empty_head _ _ Hr), <- IH. reflexivity.
  - destruct s as [|c' s']; [discriminate|].
    destruct (rstrip_head c' s') as [E|[r' E]]; rewrite E in Hr; [discriminate|].
    injection Hr as -> ->.
    change (PyStr.split (String c (String d r))) with
      (if isspace_char c then PyStr.split (String d r)
       else if isspace_char d then String c EmptyString :: PyStr.split (String d r)
       else match PyStr.split (String d r) with
            | w :: ws => String c w :: ws
            | [] => [String c EmptyString]
            end).
    change (PyStr.split (String c (String d s'))) with
      (if isspace_char c then PyStr.split (String d s')
       else if isspace_char d then String c EmptyString :: PyStr.split (String d s')
       else match PyStr.split (String d s') with
            | w :: ws => String c w :: ws
            | [] => [String c EmptyString]
            end).
    now rewrite IH.
Qed.

Lemma split_strip (s : string) : PyStr.split (strip s) = PyStr.split s.
Proof. unfold strip. now rewrite split_rstrip, split_lstrip. Qed.

Lemma parse_name_strip (s : string) : parse_name (strip s) = parse_name s.
Proof. unfold parse_name. now rewrite !split_strip. Qed.

Lemma split_blank (s : string) :
  sall isspace_char s = true -> PyStr.split s = [].
Proof.
  induction s as [|c s IH]; simpl; [reflexivity|].
  intros H. apply andb_true_iff in H. destruct H as [Hc Hs].
  rewrite Hc. auto.
Qed.

Lemma last_Forall {A : Type} (P : A -> Prop) (l : list A) (d : A) :
  Forall P l -> P d -> P (List.last l d).
Proof.
  induction 1 as [|x l Hx Hl IH]; intros Hd; simpl; [exact Hd|].
  destruct l; [exact Hx|]. apply IH, Hd.
Qed.

Lemma nth_Forall {A : Type} (P : A -> Prop) (l : list A) (n : nat) (d : A) :
  Forall P l -> P d -> P (nth n l d).
Proof.
  intros Hl Hd. revert n. induction Hl; intros [|n]; simpl; auto.
Qed.

(** Every field of a parsed name is free of whitespace. *)
Lemma parse_name_spaceless (name kw : string) :
  spaceless (get (parse_name name) kw) = true.
Proof.
  assert (Hw : Forall (fun w => spaceless w = true) (PyStr.split (strip name))).
  { eapply Forall_impl; [|apply split_words]. now intros w [_ H]. }
  unfold get, lookup, parse_name. cbn [first middle last].
  repeat match goal with
         | |- context [if ?b then _ else _] => destruct b
         end;
    try reflexivity;
    first [ apply nth_Forall | apply last_Forall ]; auto.
Qed.

(** ** Facts about the regular expressions *)

Lemma keyword_at_app (kw rest : string) :
  In kw keywords -> Re.keyword_at (kw ++ rest) = Some (kw, rest).
Proof.
  intros [<-|[<-|[<-|[]]]]; reflexivity.
Qed.

Lemma span_digits_app (ds r : string) :
  sall isdigit_char ds = true -> stops_digits r = true ->
  Re.span_digits (ds ++ r) = (ds, r).
Proof.
  intros Hd Hr.
  induction ds as [|c ds IH]; cbn [append Re.span_digits sall] in *.
  - destruct r as [|c r]; [reflexivity|].
    cbn [stops_digits Re.span_digits] in *.
    apply negb_true_iff in Hr. now rewrite Hr.
  - apply andb_true_iff in Hd. destruct Hd as [Hc Hd].
    now rewrite Hc, IH.
Qed.

Lemma at_dollar_stops (nl : string) :
  Re.at_dollar nl = true -> stops_digits nl = true.
Proof.
  destruct nl as [|c [|d nl]]; simpl; try congruence.
  intros H. apply Ascii.eqb_eq in H. now subst.
Qed.

Lemma digits_dollar_at_app (num nl : string) :
  is_digits num = true -> Re.at_dollar nl = true ->
  Re.digits_dollar_at (num ++ nl) = Some num.
Proof.
  intros Hn Hnl. unfold is_digits in Hn.
  apply andb_true_iff in Hn. destruct Hn as [Hne Hd].
  unfold Re.digits_dollar_at.
  rewrite span_digits_app by auto using at_dollar_stops.
  now rewrite Hne, Hnl.
Qed.

Lemma bracket_at_digits (num nl : string) :
  is_digits num = true -> Re.bracket_at (num ++ nl) = None.
Proof.
  unfold is_digits. destruct num as [|c num]; [discriminate|]. simpl.
  intros H. apply andb_true_iff in H. destruct H as [Hc _].
  destruct (Ascii.eqb_spec c "["); [subst; discriminate|reflexivity].
Qed.

Lemma bracket_at_app (b rest : string) :
  is_digits b = true ->
  Re.bracket_at (bracket_text (Some b) ++ rest) = Some (b, rest).
Proof.
  unfold is_digits. intros H.
  apply andb_true_iff in H. destruct H as [Hne Hd].
  simpl. rewrite append_assoc, span_digits_app by auto.
  simpl. now rewrite Hne.
Qed.

(** The shape [re_numeric] accepts: a keyword, the optional bracketed
    digits, the trailing digits, and nothing else up to the end (or up to
    one final newline). *)
Lemma re_numeric_match_form (kw : string) (br : option string)
    (num nl : string) :
  In kw keywords ->
  is_digits num = true ->
  (forall b, br = Some b -> is_digits b = true) ->
  Re.at_dollar nl = true ->
  Re.re_numeric_match (kw ++ bracket_text br ++ num ++ nl) = Some (kw, br, num).
Proof.
  intros Hkw Hnum Hbr Hnl. unfold Re.re_numeric_match.
  rewrite keyword_at_app by assumption.
  destruct br as [b|].
  - rewrite bracket_at_app by auto.
    now rewrite digits_dollar_at_app.
  - simpl bracket_text. simpl append.
    rewrite bracket_at_digits by assumption.
    now rewrite digits_dollar_at_app.
Qed.

(** Conversely, [re_numeric] accepts nothing else. *)

Lemma after_prefix_app (p s r : string) :
  Re.after_prefix p s = Some r -> s = (p ++ r)%string.
Proof.
  revert s. induction p as [|a p IH]; intros s H; cbn in H.
  - now injection H as ->.
  - destruct s as [|b s]; [discriminate|].
    destruct (Ascii.eqb_spec a b) as [->|]; [|discriminate].
    cbn. f_equal. now apply IH.
Qed.

Lemma keyword_at_inv (s kw r : string) :
  Re.keyword_at s = Some (kw, r) -> In kw keywords /\ s = (kw ++ r)%string.
Proof.
  unfold Re.keyword_at, keywords.
  destruct (Re.after_prefix "first" s) eqn:H1;
    [|destruct (Re.after_prefix "middle" s) eqn:H2;
      [|destruct (Re.after_prefix "last" s) eqn:H3; [|discriminate]]];
    intros H; injection H as <- <-;
    (split; [cbn; tauto|now apply after_prefix_app]).
Qed.

Lemma span_digits_inv (s ds r : string) :
  Re.span_digits s = (ds, r) ->
  s = (ds ++ r)%string /\ sall isdigit_char ds = true /\ stops_digits r = true.
Proof.
  revert ds. induction s as [|c s IH]; intros ds H; cbn [Re.span_digits] in H.
  - injection H as <- <-. auto.
  - destruct (isdigit_char c) eqn:Hc.
    + destruct (Re.span_digits s) as [ds' r'].
      injection H as <- <-.
      destruct (IH ds' eq_refl) as (-> & Hd & Hr).
      cbn [append sall]. now rewrite Hc.
    + injection H as <- <-. cbn [append sall stops_digits]. now rewrite Hc.
Qed.

Lemma bracket_at_inv (s b t : string) :
  Re.bracket_at s = Some (b, t) ->
  is_digits b = true /\ s = (bracket_text (Some b) ++ t)%string.
Proof.
  unfold Re.bracket_at. destruct s as [|c s]; [discriminate|].
  destruct (Ascii.eqb_spec c "[") as [->|]; [|discriminate].
  destruct (Re.span_digits s) as [ds r] eqn:Hs.
  destruct r as [|c' r']; [discriminate|].
  destruct (Ascii.eqb_spec c' "]") as [->|]; [|discriminate].
  destruct (nonempty ds) eqn:Hne; [|discriminate].
  intros H. injection H as <- <-.
  destruct (span_digits_inv _ _ _ Hs) as (-> & Hd & _).
  unfold is_digits. rewrite Hne, Hd. split; [reflexivity|].
  unfold bracket_text. rewrite !append_assoc. reflexivity.
Qed.

Lemma digits_dollar_at_inv (s num : string) :
  Re.digits_dollar_at s = Some num ->
  is_digits num = true
  /\ exists nl, Re.at_dollar nl = true /\ s = (num ++ nl)%string.
Proof.
  unfold Re.digits_dollar_at.
  destruct (Re.span_digits s) as [ds r] eqn:Hs.
  destruct (nonempty ds) eqn:Hne; [|discriminate].
  destruct (Re.at_dollar r) eqn:Hr; [|discriminate].
  intros H. injection H as <-.
  destruct (span_digits_inv _ _ _ Hs) as (-> & Hd & _).
  unfold is_digits. rewrite Hne, Hd. eauto.
Qed.

Lemma re_numeric_match_shape (s kw : string) (br : option string)
    (num : string) :
  Re.re_numeric_match s = Some (kw, br, num) ->
  In kw keywords
  /\ is_digits num = true
  /\ (forall b, br = Some b -> is_digits b = true)
  /\ exists nl,
       Re.at_dollar nl = true
       /\ s = (kw ++ bracket_text br ++ num ++ nl)%string.
Proof.
  unfold Re.re_numeric_match.
  destruct (Re.keyword_at s) as [[kw' r]|] eqn:Hk; [|discriminate].
  destruct (keyword_at_inv _ _ _ Hk) as [Hin ->].
  assert (Hwithout :
    match Re.digits_dollar_at r with
    | Some num0 => Some (kw', None, num0)
    | None => None
    end = Some (kw, br, num) ->
    In kw keywords /\ is_digits num = true
    /\ (forall b, br = Some b -> is_digits b = true)
    /\ exists nl, Re.at_dollar nl = true
                  /\ (kw' ++ r = kw ++ bracket_text br ++ num ++ nl)%string).
  { destruct (Re.digits_dollar_at r) as [num0|] eqn:Hd; [|discriminate].
    intros H. injection H as <- <- <-.
    destruct (digits_dollar_at_inv _ _ Hd) as (Hn & nl & Hnl & ->).
    repeat split; auto; try discriminate.
    exists nl. auto. }
  destruct (Re.bracket_at r) as [[b t]|] eqn:Hb; [|exact Hwithout].
  destruct (Re.digits_dollar_at t) as [num0|] eqn:Hd; [|exact Hwithout].
  intros H. injection H as <- <- <-.
  destruct (bracket_at_inv _ _ _ Hb) as [Hbd ->].
  destruct (digits_dollar_at_inv _ _ Hd) as (Hn & nl & Hnl & ->).
  repeat split; auto.
  - intros b' E. now injection E as <-.
  - exists nl. split; [exact Hnl|reflexivity].
Qed.

(** ** Facts about [_process_format] on a bare keyword *)

Lemma bracket_pass_keyword (np : name_parts) (kw : string) :
  In kw keywords -> bracket_pass kw np = kw.
Proof.
  intros [<-|[<-|[<-|[]]]]; reflexivity.
Qed.

Lemma keyword_pass_keyword (np : name_parts) (kw : string) :
  In kw keywords -> keyword_pass kw np = get np kw.
Proof.
  intros [<-|[<-|[<-|[]]]]; cbv [keyword_pass]; simpl;
    now rewrite append_empty_r.
Qed.

Lemma case_pass_keyword (self : UsernameGenerator) (kw text : string) :
  In kw keywords -> nonempty text = true ->
  case_pass self kw text = if case_sensitive self then text else lower text.
Proof.
  intros Hkw Hne. unfold case_pass. rewrite Hne.
  destruct (case_sensitive self); simpl; [|reflexivity].
  destruct Hkw as [<-|[<-|[<-|[]]]]; reflexivity.
Qed.

Lemma process_format_keyword (self : UsernameGenerator) (name kw : string) :
  In kw keywords ->
  _process_format self kw (parse_name name) =
    let base := keyword_value self (parse_name name) kw in
    if nonempty base then Some base else None.
Proof.
  intros Hkw. unfold _process_format, keyword_value.
  rewrite bracket_pass_keyword, keyword_pass_keyword by assumption.
  pose proof (parse_name_spaceless name kw) as Hs.
  destruct (get (parse_name name) kw) as [|c v] eqn:Hv.
  - cbn. destruct (case_sensitive self); reflexivity.
  - rewrite case_pass_keyword by (assumption || reflexivity).
    cbv zeta.
    destruct (case_sensitive self).
    + now rewrite (spaceless_not_isspace _ Hs).
    + rewrite <- spaceless_lower in Hs.
      now rewrite (spaceless_not_isspace _ Hs), nonempty_lower.
Qed.

(** ** The numeric-suffix path *)

(** C1.  A pattern made of a keyword, optional bracketed digits and trailing
    digits [num] (up to the end of the pattern, or up to one final newline,
    where [$] also matches) is evaluated on the numeric path alone: with
    [base] the value the keyword stands for in the parsed name, the result
    is [base + "0"], ..., [base + str(int(num))] in this order when [base] is
    not empty, and nothing when it is empty.  The bracketed digits do not
    occur in the result: they are not applied as a truncation. *)
Theorem apply_format_numeric_suffix (self : UsernameGenerator)
    (kw : string) (br : option string) (num nl name : string) :
  In kw keywords ->
  is_digits num = true ->
  (forall b, br = Some b -> is_digits b = true) ->
  Re.at_dollar nl = true ->
  let np := parse_name name in
  let base := keyword_value self np kw in
  apply_format self (kw ++ bracket_text br ++ num ++ nl) np =
    if nonempty base then numbered base (int num) else [].
Proof.
  intros Hkw Hnum Hbr Hnl np base. unfold apply_format.
  rewrite re_numeric_match_form by assumption.
  unfold np. rewrite process_format_keyword by assumption.
  cbv zeta. fold np. fold base.
  destruct (nonempty base); reflexivity.
Qed.

Lemma apply_format_numeric_suffix_witness :
  apply_format (init None None) "first[2]5" (parse_name "Ada Lovelace")
  = ["Ada0"; "Ada1"; "Ada2"; "Ada3"; "Ada4"; "Ada5"].
Proof.
  refine (apply_format_numeric_suffix (init None None) "first" (Some "2") "5"
            "" "Ada Lovelace" _ _ _ _).
  - simpl; auto.
  - reflexivity.
  - intros b E. injection E as <-. reflexivity.
  - reflexivity.
Defined.

(** The numeric path does not fall back on ordinary substitution: for a
    name without middle part, [middle5] gives nothing, although ordinary
    substitution of the same pattern would give a string. *)
Lemma numeric_path_no_fallthrough (self : UsernameGenerator) :
  apply_format self "middle5" (parse_name "Ada Lovelace") = []
  /\ _process_format self "middle5" (parse_name "Ada Lovelace") = Some "5".
Proof.
  destruct self as [[] fmts]; split; reflexivity.
Qed.

(** ** Ordinary substitution and case shaping on examples *)

(** C4, as the code has it.  With the default [case_sensitive = True], the
    pattern [first[2]last] on the name [Ada Lovelace] yields the single
    string [AdLovelace]: the first two characters of the first name, then
    the last name, both in the casing of the input. *)
Theorem first2last_ada_lovelace (fmts : option (list string)) :
  apply_format (init None fmts) "first[2]last" (parse_name "Ada Lovelace")
    = ["AdLovelace"]
  /\ generate_from_name (init None (Some ["first[2]last"])) (Some "Ada Lovelace")
    = inr ["AdLovelace"].
Proof.
  split; reflexivity.
Qed.

(** C4 as stated fails: the result is not [adLovelace]. *)
Lemma first2last_ada_lovelace_not_lowercase :
  apply_format (init None None) "first[2]last" (parse_name "Ada Lovelace")
    <> ["adLovelace"].
Proof.
  vm_compute. discriminate.
Qed.

(** C5 on the code.  The keywords are matched case-sensitively, so neither
    [First] nor [Last] is a keyword: the pattern [First.Last] is left as it
    is by both substitution passes, and capitalising its parts gives the
    pattern back.  The name does not occur in the result. *)
Theorem capitalized_pattern_not_substituted (fmts : list string) (name : string) :
  let self := mk_generator true fmts in
  bracket_pass "First.Last" (parse_name name) = "First.Last"
  /\ keyword_pass "First.Last" (parse_name name) = "First.Last"
  /\ apply_format self "First.Last" (parse_name name) = ["First.Last"]
  /\ generate_from_name (mk_generator true ["First.Last"]) (Some "Ada Lovelace")
     = inr ["First.Last"]
  /\ apply_format self "First.Last" (parse_name "Ada Lovelace") <> ["Ada.Lovelace"].
Proof.
  repeat split; try reflexivity. vm_compute. discriminate.
Qed.

(** The two passes on the name [lastman smith]: the pattern [first[4]]
    becomes [last] after the first pass, which the second pass replaces by
    the last name. *)
Theorem spliced_value_is_rescanned (self : UsernameGenerator) :
  let np := parse_name "lastman smith" in
  bracket_pass "first[4]" np = "last"
  /\ keyword_pass (bracket_pass "first[4]" np) np = "smith"
  /\ _process_format self "first[4]" np = Some "smith"
  /\ apply_format self "first[4]" np = ["smith"]
  /\ apply_format self "first[4]" np <> ["last"].
Proof.
  destruct self as [[] fmts]; repeat split; try reflexivity;
    vm_compute; discriminate.
Qed.

(** ** Unusable names *)

Lemma parse_name_blank (name : string) :
  sall isspace_char name = true -> first (parse_name name) = EmptyString.
Proof.
  intros H. unfold parse_name. rewrite split_strip, split_blank by assumption.
  reflexivity.
Qed.

(** C6.  A name whose parsed first component is empty gives the empty list,
    whatever the patterns and the case flag; the empty string and the
    strings of whitespace only are such names. *)
Theorem generate_from_name_empty_first (self : UsernameGenerator)
    (name : string) :
  first (parse_name name) = EmptyString \/ sall isspace_char name = true ->
  first (parse_name name) = EmptyString
  /\ generate_from_name self (Some name) = inr [].
Proof.
  intros H.
  assert (Hf : first (parse_name name) = EmptyString).
  { destruct H as [H|H]; [exact H|now apply parse_name_blank]. }
  split; [exact Hf|].
  unfold generate_from_name.
  destruct (nonempty (strip name)); [|reflexivity]. cbn [negb].
  rewrite parse_name_strip, Hf. reflexivity.
Qed.

Lemma generate_from_name_empty_first_witness :
  first (parse_name "  ") = EmptyString
  /\ generate_from_name (init None None) (Some "  ") = inr [].
Proof.
  apply (generate_from_name_empty_first (init None None) "  ").
  right. reflexivity.
Defined.

(** ** [process_single_task] *)

(** A line of the input file never raises. *)
Lemma process_single_task_name (self : UsernameGenerator) (name : string) :
  exists usernames,
    process_single_task self (prepare_args (Name name)) = inr usernames.
Proof.
  unfold process_single_task, prepare_args, generate_from_name.
  destruct (negb (nonempty (strip name))); [eauto|].
  destruct (negb (nonempty (first (parse_name (strip name))))); eauto.
Qed.

(** A pair of two non-empty components never raises. *)
Lemma process_single_task_pair (self : UsernameGenerator) (fn ln : string) :
  nonempty fn = true -> nonempty ln = true ->
  exists usernames,
    process_single_task self (prepare_args (Pair fn ln)) = inr usernames.
Proof.
  intros Hf Hl.
  unfold process_single_task, prepare_args, generate_from_name.
  rewrite Hf, Hl. cbn [andb].
  destruct (negb (nonempty (strip (fn ++ " " ++ ln)))); [eauto|].
  destruct (negb (nonempty (first (parse_name (strip (fn ++ " " ++ ln))))));
    eauto.
Qed.

(** C7 on the code.  For a pair with an empty component the full name falls
    back on the [name] slot, which [prepare_args] sets to [None] for a
    pair, and [generate_from_name] raises on it.  A line that is empty or
    blank gives the empty list instead. *)
Theorem process_single_task_pair_empty_component (self : UsernameGenerator)
    (other : string) :
  process_single_task self (prepare_args (Pair "" other)) = inl AttributeError
  /\ process_single_task self (prepare_args (Pair other "")) = inl AttributeError
  /\ process_single_task self (prepare_args (Name "")) = inr [].
Proof.
  repeat split; try reflexivity.
  unfold process_single_task, prepare_args.
  destruct (nonempty other); reflexivity.
Qed.

(** ** The default patterns *)

(** None of the default patterns is a numeric-suffix pattern: [re_numeric]
    matches none of them. *)
Lemma default_formats_not_numeric :
  Forall (fun p => Re.re_numeric_match p = None) DEFAULT_FORMATS.
Proof.
  repeat constructor.
Qed.

(** C9.  Without patterns of its own ([None], or the empty list, which is
    false as well) the generator takes the 18 default patterns: [first],
    [last] and both concatenations plain, with a dot, a hyphen and an
    underscore between the two names, with the first component cut to one
    character, and the concatenated forms that end in the digit modifier
    [[1]]. *)
Theorem default_formats_cover (cs : option bool) :
  formats (init cs None) = DEFAULT_FORMATS
  /\ formats (init cs (Some [])) = DEFAULT_FORMATS
  /\ length DEFAULT_FORMATS = 18
  /\ NoDup DEFAULT_FORMATS
  /\ Permutation DEFAULT_FORMATS
       (plain_forms ++ dotted_forms ++ hyphenated_forms ++ underscored_forms
        ++ truncated_forms ++ trailing_digit_forms).
Proof.
  repeat split.
  - repeat (constructor; [cbn; intuition discriminate|]). constructor.
  - cbn.
    repeat apply perm_skip.
    change (Permutation
              (["firstlast[1]"] ++ ["first[1]last"; "last[1]first"]
               ++ ["lastfirst[1]"; "first[1]last[1]"; "last[1]first[1]"])
              (["first[1]last"; "last[1]first"] ++ ["firstlast[1]"]
               ++ ["lastfirst[1]"; "first[1]last[1]"; "last[1]first[1]"])).
    rewrite !app_assoc. apply Permutation_app_tail, Permutation_app_comm.
Qed.

(** ** The body of the collecting loop *)

Section CollectFacts.

Context {bar : Tqdm}.

Variable generator : UsernameGenerator.

Lemma collect_success (v : vars) (item : WorkItem) (usernames : list string) :
  task generator item = inr usernames ->
  pbar_n (collect generator v item) = pbar_update (pbar_disable v) (pbar_n v)
  /\ total_generated (collect generator v item) = total_generated v + length usernames
  /\ stderr (collect generator v item) = stderr v
  /\ match output_file v with
     | None =>
         output_file (collect generator v item) = None
         /\ output_buffer (collect generator v item) = output_buffer v
         /\ stdout (collect generator v item) = stdout v ++ usernames
     | Some writes =>
         stdout (collect generator v item) = stdout v
         /\ let buffer := output_buffer v ++ usernames in
            if WRITE_BUFFER_SIZE <=? length buffer then
              output_file (collect generator v item) = Some (writes ++ [batch_text buffer])
              /\ output_buffer (collect generator v item) = []
            else
              output_file (collect generator v item) = Some writes
              /\ output_buffer (collect generator v item) = buffer
     end.
Proof.
  intros Ht. unfold collect. rewrite Ht.
  destruct (output_file v) as [writes|] eqn:Hf; cbn [output_file].
  - cbv zeta.
    destruct (WRITE_BUFFER_SIZE <=? length (output_buffer v ++ usernames)) eqn:Hl;
      cbn; repeat split; try reflexivity.
    destruct (output_buffer v ++ usernames) eqn:Hb; [discriminate Hl|].
    reflexivity.
  - cbn. repeat split; reflexivity.
Qed.

Lemma collect_failure (v : vars) (item : WorkItem) (e : exn) :
  task generator item = inl e ->
  pbar_n (collect generator v item) = pbar_update (pbar_disable v) (pbar_n v)
  /\ total_generated (collect generator v item) = total_generated v
  /\ stderr (collect generator v item) = stderr v ++ [(item, e)]
  /\ output_file (collect generator v item) = output_file v
  /\ output_buffer (collect generator v item) = output_buffer v
  /\ stdout (collect generator v item) = stdout v.
Proof.
  intros Ht. unfold collect. rewrite Ht.
  cbn. repeat split; reflexivity.
Qed.

Lemma collect_total (v : vars) (item : WorkItem) :
  total_generated (collect generator v item)
  = total_generated v + length (usernames_of generator item).
Proof.
  unfold usernames_of. destruct (task generator item) as [e|us] eqn:Ht.
  - destruct (collect_failure v item e Ht) as (_ & H & _).
    rewrite H. cbn [length]. lia.
  - destruct (collect_success v item us Ht) as (_ & H & _). exact H.
Qed.

Lemma collect_pbar (v : vars) (item : WorkItem) :
  pbar_n (collect generator v item) = pbar_update (pbar_disable v) (pbar_n v).
Proof.
  destruct (task generator item) as [e|us] eqn:Ht.
  - now destruct (collect_failure v item e Ht) as (H & _).
  - now destruct (collect_success v item us Ht) as (H & _).
Qed.

Lemma collect_pbar_disable (v : vars) (item : WorkItem) :
  pbar_disable (collect generator v item) = pbar_disable v.
Proof.
  unfold collect.
  destruct (task generator item); [reflexivity|].
  destruct (output_file v); [|reflexivity].
  destruct (WRITE_BUFFER_SIZE <=? _); reflexivity.
Qed.

Lemma collect_stderr (v : vars) (item : WorkItem) :
  stderr (collect generator v item) = stderr v ++ failures generator [item].
Proof.
  unfold failures. cbn [flat_map]. rewrite app_nil_r.
  destruct (task generator item) as [e|us] eqn:Ht.
  - now destruct (collect_failure v item e Ht) as (_ & _ & H & _).
  - destruct (collect_success v item us Ht) as (_ & _ & H & _).
    now rewrite H, app_nil_r.
Qed.

Lemma collect_stdout (v : vars) (item : WorkItem) :
  output_file v = None ->
  output_file (collect generator v item) = None
  /\ stdout (collect generator v item) = stdout v ++ usernames_of generator item.
Proof.
  intros Hf. unfold usernames_of.
  destruct (task generator item) as [e|us] eqn:Ht.
  - destruct (collect_failure v item e Ht) as (_ & _ & _ & H1 & _ & H2).
    rewrite H1, H2, app_nil_r. auto.
  - pose proof (collect_success v item us Ht) as (_ & _ & _ & H).
    rewrite Hf in H. tauto.
Qed.

Lemma collect_sink (generated : list string) (v : vars) (item : WorkItem) :
  sink_ok generated v ->
  sink_ok (generated ++ usernames_of generator item) (collect generator v item).
Proof.
  intros (batches & Hf & Hg & Hb & Hl).
  unfold usernames_of, sink_ok.
  destruct (task generator item) as [e|us] eqn:Ht.
  - destruct (collect_failure v item e Ht) as (_ & _ & _ & H1 & H2 & _).
    exists batches. rewrite H1, H2, app_nil_r. auto.
  - pose proof (collect_success v item us Ht) as (_ & _ & _ & H).
    rewrite Hf in H. destruct H as [_ H]. cbv zeta in H.
    destruct (WRITE_BUFFER_SIZE <=? length (output_buffer v ++ us)) eqn:Hc;
      destruct H as [H1 H2]; rewrite H1, H2.
    + exists (batches ++ [output_buffer v ++ us]).
      rewrite map_app, concat_app. cbn [map concat length].
      rewrite !app_nil_r, <- Hg, app_assoc.
      repeat split; auto.
      * apply Forall_app. split; [exact Hb|]. constructor; [|constructor].
        now apply Nat.leb_le.
      * unfold WRITE_BUFFER_SIZE. lia.
    + exists batches. rewrite <- Hg, app_assoc.
      repeat split; auto. now apply Nat.leb_gt.
Qed.

Lemma fold_collect_total (items : list WorkItem) (v : vars) :
  total_generated (fold_left (collect generator) items v)
  = total_generated v
    + list_sum (map (fun item => length (usernames_of generator item)) items).
Proof.
  unfold list_sum.
  revert v. induction items as [|x l IH]; intros v; cbn [fold_left map fold_right].
  - lia.
  - rewrite IH, collect_total. lia.
Qed.

Lemma fold_collect_pbar_disable (items : list WorkItem) (v : vars) :
  pbar_disable (fold_left (collect generator) items v) = pbar_disable v.
Proof.
  revert v. induction items as [|x l IH]; intros v; cbn [fold_left];
    [reflexivity|].
  now rewrite IH, collect_pbar_disable.
Qed.

Lemma fold_collect_pbar (items : list WorkItem) (v : vars) :
  pbar_n (fold_left (collect generator) items v)
  = if honours_disable && pbar_disable v then pbar_n v
    else pbar_n v + length items.
Proof.
  revert v. induction items as [|x l IH]; intros v; cbn [fold_left length].
  - destruct (honours_disable && pbar_disable v); lia.
  - rewrite IH, collect_pbar, collect_pbar_disable. unfold pbar_update.
    destruct (honours_disable && pbar_disable v); lia.
Qed.

Lemma fold_collect_stderr (items : list WorkItem) (v : vars) :
  stderr (fold_left (collect generator) items v) = stderr v ++ failures generator items.
Proof.
  revert v. induction items as [|x l IH]; intros v; cbn [fold_left].
  - cbn. now rewrite app_nil_r.
  - rewrite IH, collect_stderr, <- app_assoc.
    unfold failures. cbn [flat_map]. now rewrite app_nil_r.
Qed.

Lemma fold_collect_stdout (items : list WorkItem) (v : vars) :
  output_file v = None ->
  output_file (fold_left (collect generator) items v) = None
  /\ output_buffer (fold_left (collect generator) items v) = output_buffer v
  /\ stdout (fold_left (collect generator) items v)
     = stdout v ++ flat_map (usernames_of generator) items.
Proof.
  revert v. induction items as [|x l IH]; intros v Hf; cbn [fold_left flat_map].
  - rewrite app_nil_r. auto.
  - destruct (collect_stdout v x Hf) as [H1 H2].
    destruct (IH _ H1) as (I1 & I2 & I3).
    rewrite I1, I2, I3, H2, <- app_assoc. repeat split.
    unfold collect.
    destruct (task generator x); rewrite Hf; reflexivity.
Qed.

Lemma fold_collect_sink (items : list WorkItem) (generated : list string)
    (v : vars) :
  sink_ok generated v ->
  sink_ok (generated ++ flat_map (usernames_of generator) items)
          (fold_left (collect generator) items v).
Proof.
  revert generated v.
  induction items as [|x l IH]; intros generated v H; cbn [fold_left flat_map].
  - now rewrite app_nil_r.
  - rewrite app_assoc. apply IH, collect_sink, H.
Qed.

End CollectFacts.

(** ** The controller *)

Lemma Permutation_list_sum (l l' : list nat) :
  Permutation l l' -> list_sum l = list_sum l'.
Proof.
  unfold list_sum.
  induction 1; cbn [fold_right]; lia.
Qed.

Section RunFacts.

Context {bar : Tqdm}.

Variable generator : UsernameGenerator.
Variable workers : nat.
Variable as_completed : nat -> list WorkItem -> list WorkItem.
Variable source : list WorkItem.

Hypothesis workers_positive : 0 < workers.
Hypothesis as_completed_perm :
  forall r chunk, Permutation (as_completed r chunk) chunk.

Local Abbreviation step1 := (step generator workers as_completed).
Local Abbreviation run_to := (run generator workers as_completed source).
Local Abbreviation final := (final_state generator workers as_completed source).
Local Abbreviation invariant := (inv generator workers source).

Lemma chunk_size_positive : 0 < CHUNK_SIZE workers.
Proof. unfold CHUNK_SIZE. lia. Qed.

Lemma firstn_chunk_nil (l : list WorkItem) :
  firstn (CHUNK_SIZE workers) l = [] -> l = [].
Proof.
  pose proof chunk_size_positive as H.
  destruct (CHUNK_SIZE workers); [lia|].
  destruct l; [reflexivity|discriminate].
Qed.

Lemma inv_init (out : option (list string)) : invariant out (init_state source out).
Proof.
  repeat split; cbn; try lia; try discriminate.
  exists []. split; [reflexivity|constructor].
Qed.

Lemma inv_step (out : option (list string)) (s : state) :
  invariant out s -> invariant out (step1 s).
Proof.
  intros ((pulled & Hsrc & Hperm) & Hb & Hl & Hd). unfold step.
  destruct (finished s) eqn:Hfin.
  { unfold inv. rewrite Hfin. eauto 10. }
  destruct (futures s) as [|item rest] eqn:Hfu.
  - destruct (firstn (CHUNK_SIZE workers) (iterator s)) as [|a chunk] eqn:Hch.
    + apply firstn_chunk_nil in Hch.
      unfold inv. cbn [iterator futures collected finished locals].
      rewrite Hl. repeat split; auto; try (cbn; lia).
      exists pulled. split; [exact Hsrc|exact Hperm].
    + unfold inv. cbn [iterator futures collected finished locals].
      repeat split; auto; try discriminate.
      * exists (pulled ++ a :: chunk). split.
        -- rewrite <- Hch, <- app_assoc, firstn_skipn. exact Hsrc.
        -- apply Permutation_app; [|apply as_completed_perm].
           now rewrite app_nil_r in Hperm.
      * rewrite (Permutation_length (as_completed_perm _ _)), <- Hch.
        rewrite length_firstn. unfold CHUNK_SIZE. lia.
  - unfold inv. cbn [iterator futures collected finished locals].
    repeat split; auto; try discriminate.
    + exists pulled. split; [exact Hsrc|].
      now rewrite <- app_assoc.
    + cbn [length] in Hb. lia.
    + now rewrite fold_left_app, Hl.
Qed.

Lemma run_S (out : option (list string)) (n : nat) :
  run_to out (S n) = step1 (run_to out n).
Proof. reflexivity. Qed.

Lemma inv_run (out : option (list string)) (n : nat) : invariant out (run_to out n).
Proof.
  induction n as [|n IH]; [apply inv_init|].
  rewrite run_S. apply inv_step, IH.
Qed.

Lemma step_decreases (s : state) :
  finished s = false -> remaining_actions (step1 s) < remaining_actions s.
Proof.
  intros Hfin. unfold step, remaining_actions. rewrite Hfin.
  destruct (futures s) as [|item rest] eqn:Hfu.
  - destruct (firstn (CHUNK_SIZE workers) (iterator s)) as [|a chunk] eqn:Hch;
      cbn [iterator futures finished length].
    + lia.
    + rewrite (Permutation_length (as_completed_perm _ _)), length_skipn.
      assert (H : length (a :: chunk) <= length (iterator s)).
      { rewrite <- Hch, length_firstn. lia. }
      assert (H' : length (a :: chunk) <= CHUNK_SIZE workers).
      { rewrite <- Hch, length_firstn. lia. }
      cbn [length] in *. lia.
  - cbn [iterator futures finished length]. lia.
Qed.

Lemma step_finished (s : state) : finished s = true -> step1 s = s.
Proof. intros H. unfold step. now rewrite H. Qed.

Lemma run_progress (out : option (list string)) (n : nat) :
  finished (run_to out n) = true
  \/ remaining_actions (run_to out n) + n <= enough source.
Proof.
  induction n as [|n IH].
  - right. cbn. unfold enough. lia.
  - rewrite run_S.
    destruct IH as [IH|IH].
    + left. now rewrite step_finished.
    + destruct (finished (run_to out n)) eqn:Hfin.
      * left. now rewrite step_finished.
      * right. pose proof (step_decreases _ Hfin). lia.
Qed.

(** The run ends: after [enough source] actions the loop has been left and
    the rest of the buffer written. *)
Lemma final_finished (out : option (list string)) :
  finished (final out) = true.
Proof.
  destruct (run_progress out (enough source)) as [H|H]; [exact H|].
  unfold final_state.
  destruct (finished (run_to out (enough source))) eqn:Hfin; [reflexivity|].
  unfold remaining_actions in H. rewrite Hfin in H. lia.
Qed.

Lemma final_collected (out : option (list string)) :
  Permutation (collected (final out)) source
  /\ locals (final out)
     = write_rest (fold_left (collect generator) (collected (final out))
                             (init_vars out)).
Proof.
  pose proof (final_finished out) as Hfin.
  destruct (inv_run out (enough source)) as ((pulled & Hsrc & Hperm) & _ & Hl & Hd).
  fold (final out) in *.
  destruct (Hd Hfin) as [Hfu Hit].
  rewrite Hfin in Hl. split; [|exact Hl].
  rewrite Hfu, Hit, !app_nil_r in *. now subst.
Qed.

End RunFacts.

(** ** The pipeline claims *)

Lemma demo_order_perm (r : nat) (chunk : list WorkItem) :
  Permutation (demo_order r chunk) chunk.
Proof. apply Permutation_sym, Permutation_rev. Qed.

Lemma chunked_run {bar : Tqdm} (generator : UsernameGenerator) (workers : nat)
    (as_completed : nat -> list WorkItem -> list WorkItem)
    (source : list WorkItem) (out : option (list string)) (n : nat) :
  0 < workers ->
  chunked workers source (run generator workers as_completed source out n).
Proof.
  intros Hw. induction n as [|n IH]; [split; [reflexivity|now left]|].
  rewrite run_S.
  set (s := run generator workers as_completed source out n) in *.
  destruct IH as [Hit Hr]. unfold chunked, step.
  destruct (finished s); [now split|].
  destruct (futures s) as [|item rest]; [|now split].
  unfold CHUNK_SIZE.
  destruct (firstn (workers * 200) (iterator s)) as [|a chunk] eqn:Hch;
    cbn [iterator round]; [now split|].
  assert (Hlen : round s * (workers * 200) < length source).
  { assert (H : length (iterator s) <> 0).
    { intros H. apply length_zero_iff_nil in H. rewrite H in Hch.
      now rewrite firstn_nil in Hch. }
    rewrite Hit, length_skipn in H. lia. }
  split.
  - rewrite Hit, skipn_skipn. reflexivity.
  - right. cbn. rewrite Nat.sub_0_r. exact Hlen.
Qed.

(** C2.  The source is pulled in consecutive chunks of [workers * 200]
    items.  In every state of a run: the items pulled and not yet collected
    are the futures in flight, at most [workers * 200]; what has been pulled
    is the first [round] chunks of the source, and what is left is the rest.
    While a future is in flight, an action collects one and leaves the
    source alone; when none is in flight and the source is not exhausted,
    an action pulls the next [workers * 200] items (or what is left) and
    submits them all.  The run ends with the whole source pulled and
    collected, after as many pulls as the source has chunks. *)
Theorem in_flight_bounded {bar : Tqdm} (generator : UsernameGenerator)
    (workers : nat) (as_completed : nat -> list WorkItem -> list WorkItem)
    (source : list WorkItem) (out : option (list string)) (n : nat) :
  0 < workers ->
  (forall r chunk, Permutation (as_completed r chunk) chunk) ->
  let chunk_size := workers * 200 in
  let s := run generator workers as_completed source out n in
  let s' := step generator workers as_completed s in
  let final := final_state generator workers as_completed source out in
  in_flight source s = length (futures s)
  /\ in_flight source s <= chunk_size
  /\ iterator s = skipn (round s * chunk_size) source
  /\ Permutation (collected s ++ futures s) (firstn (round s * chunk_size) source)
  /\ (finished s = false -> futures s <> [] ->
        iterator s' = iterator s
        /\ round s' = round s
        /\ length (futures s') + 1 = length (futures s)
        /\ length (collected s') = length (collected s) + 1)
  /\ (finished s = false -> futures s = [] -> iterator s <> [] ->
        round s' = S (round s)
        /\ iterator s' = skipn chunk_size (iterator s)
        /\ Permutation (futures s') (firstn chunk_size (iterator s))
        /\ length (futures s') = Nat.min chunk_size (length (iterator s)))
  /\ (finished final = true
      /\ iterator final = [] /\ futures final = []
      /\ Permutation (collected final) source
      /\ round final = (length source + chunk_size - 1) / chunk_size).
Proof.
  intros Hw Hperm chunk_size s s' final.
  destruct (inv_run generator workers as_completed source Hw Hperm out n)
    as ((pulled & Hsrc & Hp) & Hb & _ & _).
  destruct (chunked_run generator workers as_completed source out n Hw)
    as [Hit _].
  fold s in Hsrc, Hp, Hb, Hit. fold chunk_size in Hit.
  assert (Hin : in_flight source s = length (futures s)).
  { unfold in_flight. rewrite Hsrc at 1.
    pose proof (Permutation_length Hp) as Hlen.
    rewrite !length_app in *. lia. }
  assert (Hpulled : pulled = firstn (round s * chunk_size) source).
  { apply (app_inv_tail (iterator s)). rewrite <- Hsrc.
    transitivity (firstn (round s * chunk_size) source
                  ++ skipn (round s * chunk_size) source).
    - symmetry. apply firstn_skipn.
    - now rewrite <- Hit. }
  split; [exact Hin|]. split; [unfold chunk_size; lia|].
  split; [exact Hit|]. split; [now rewrite <- Hpulled|].
  split; [|split].
  - intros Hfin Hfu. unfold s', step. rewrite Hfin.
    destruct (futures s) as [|item rest]; [congruence|].
    cbn [iterator round futures collected length].
    rewrite length_app. cbn [length]. repeat split; lia.
  - intros Hfin Hfu Hne. unfold s', step. rewrite Hfin, Hfu.
    fold (CHUNK_SIZE workers). unfold chunk_size.
    fold (CHUNK_SIZE workers).
    destruct (firstn (CHUNK_SIZE workers) (iterator s)) as [|a chunk] eqn:Hch.
    + apply (firstn_chunk_nil workers Hw) in Hch. contradiction.
    + cbn [iterator round futures]. repeat split.
      * apply Hperm.
      * rewrite (Permutation_length (Hperm _ _)), <- Hch. apply length_firstn.
  - pose proof (final_finished generator workers as_completed source Hw Hperm out)
      as Hfin.
    destruct (final_collected generator workers as_completed source Hw Hperm out)
      as [Hc _].
    destruct (inv_run generator workers as_completed source Hw Hperm out
                (enough source)) as (_ & _ & _ & Hd).
    destruct (chunked_run generator workers as_completed source out
                (enough source) Hw) as [Hfi Hr].
    fold (final_state generator workers as_completed source out) in Hd, Hfi, Hr.
    fold final in Hfin, Hc, Hd, Hfi, Hr. fold chunk_size in Hfi, Hr.
    destruct (Hd Hfin) as [Hfu Hi].
    repeat split; auto.
    assert (Hle : length source <= round final * chunk_size).
    { apply (f_equal (@length WorkItem)) in Hfi.
      rewrite Hi, length_skipn in Hfi. cbn [length] in Hfi. lia. }
    assert (Hc0 : 0 < chunk_size) by (unfold chunk_size; lia).
    apply Nat.div_unique
      with (r := length source + chunk_size - 1 - chunk_size * round final);
      destruct Hr as [Hr|Hr]; nia.
Qed.

Lemma in_flight_bounded_witness :
  let s := run one_pattern 1 demo_order long_source None 201 in
  let s' := step one_pattern 1 demo_order s in
  round s = 1
  /\ round s' = 2
  /\ iterator s' = skipn 200 (iterator s)
  /\ length (futures s') = Nat.min 200 (length (iterator s))
  /\ in_flight long_source s <= 200.
Proof.
  intros s s'.
  pose proof (in_flight_bounded one_pattern 1 demo_order long_source None 201)
    as H.
  destruct H as (_ & Hb & _ & _ & _ & Hpull & _).
  - lia.
  - exact demo_order_perm.
  - destruct Hpull as (H1 & H2 & _ & H3).
    + vm_compute. reflexivity.
    + vm_compute. reflexivity.
    + vm_compute. discriminate.
    + fold s in H1, H2, H3, Hb. fold s' in H1, H2, H3.
      assert (Hr : round s = 1) by (vm_compute; reflexivity).
      rewrite Hr in H1. repeat split; assumption.
Defined.

(** C3, as the code has it.  Consuming the result of one item: on success
    the total grows by the number of strings of the item, nothing is
    reported, and the strings go to the output (printed when there is no
    file, appended to the sink otherwise); on failure one error event with
    the item and the exception is reported, and the total and the output
    stay as they are.  Either way the bar gets one [update(1)]: its counter
    advances by one when the bar is enabled (a file is given) or when the
    class in use is the fallback of the source, and stays as it is on a
    disabled bar of the tqdm library (no file).  Over the whole run every
    item of the source is consumed, failing or not, and the function
    returns the sum of the numbers of strings of the items that succeed. *)
Theorem per_item_accounting {bar : Tqdm} (generator : UsernameGenerator)
    (workers : nat) (as_completed : nat -> list WorkItem -> list WorkItem)
    (source : list WorkItem) (out : option (list string)) :
  0 < workers ->
  (forall r chunk, Permutation (as_completed r chunk) chunk) ->
  (forall v item,
      let v' := collect generator v item in
      pbar_n v' = pbar_update (pbar_disable v) (pbar_n v)
      /\ (pbar_disable v = false \/ honours_disable = false ->
          pbar_n v' = pbar_n v + 1)
      /\ (pbar_disable v = true -> honours_disable = true ->
          pbar_n v' = pbar_n v)
      /\ match task generator item with
         | inr usernames =>
             total_generated v' = total_generated v + length usernames
             /\ stderr v' = stderr v
             /\ (output_file v = None -> stdout v' = stdout v ++ usernames)
             /\ (forall generated,
                   sink_ok generated v -> sink_ok (generated ++ usernames) v')
         | inl e =>
             total_generated v' = total_generated v
             /\ stderr v' = stderr v ++ [(item, e)]
             /\ output_file v' = output_file v
             /\ output_buffer v' = output_buffer v
             /\ stdout v' = stdout v
         end)
  /\ let s := final_state generator workers as_completed source out in
     let total :=
       list_sum (map (fun item => length (usernames_of generator item)) source) in
     finished s = true
     /\ Permutation (collected s) source
     /\ pbar_n (locals s)
        = (if honours_disable && negb (show_bar out) then 0 else length source)
     /\ stderr (locals s) = failures generator (collected s)
     /\ Permutation (stderr (locals s)) (failures generator source)
     /\ total_generated (locals s) = total
     /\ run_processing generator workers as_completed source out = inr total.
Proof.
  intros Hw Hperm. split.
  - intros v item v'.
    assert (Hp : pbar_n v' = pbar_update (pbar_disable v) (pbar_n v))
      by apply collect_pbar.
    split; [exact Hp|]. split; [|split].
    + rewrite Hp. unfold pbar_update.
      intros [-> | ->]; [now rewrite andb_false_r|reflexivity].
    + rewrite Hp. unfold pbar_update. now intros -> ->.
    + destruct (task generator item) as [e|us] eqn:Ht.
      * destruct (collect_failure generator v item e Ht) as (_ & H). exact H.
      * pose proof (collect_success generator v item us Ht)
          as (_ & H1 & H2 & H3).
        repeat split; auto.
        -- intros Hf. rewrite Hf in H3. tauto.
        -- intros generated Hs.
           pose proof (collect_sink generator generated v item Hs) as H.
           unfold usernames_of in H. now rewrite Ht in H.
  - intros s total.
    pose proof (final_finished generator workers as_completed source Hw Hperm out)
      as Hfin.
    destruct (final_collected generator workers as_completed source Hw Hperm out)
      as [Hc Hl].
    fold s in Hfin, Hc, Hl.
    assert (Hrest : forall v, pbar_n (write_rest v) = pbar_n v
                              /\ stderr (write_rest v) = stderr v
                              /\ total_generated (write_rest v) = total_generated v).
    { intros v. unfold write_rest.
      destruct (output_file v); [destruct (output_buffer v)|]; auto. }
    destruct (Hrest (fold_left (collect generator) (collected s) (init_vars out)))
      as (R1 & R2 & R3).
    assert (Htot : total_generated (locals s) = total).
    { rewrite Hl, R3, fold_collect_total. cbn [init_vars total_generated].
      unfold total. apply Permutation_list_sum, Permutation_map, Hc. }
    assert (Herr : stderr (locals s) = failures generator (collected s)).
    { rewrite Hl, R2, fold_collect_stderr. reflexivity. }
    repeat split; auto.
    + rewrite Hl, R1, fold_collect_pbar. cbn [init_vars pbar_n pbar_disable].
      now rewrite (Permutation_length Hc).
    + rewrite Herr. unfold failures. apply Permutation_flat_map, Hc.
    + unfold run_processing. fold s. rewrite Htot.
      destruct workers; [lia|reflexivity].
Qed.

Lemma per_item_accounting_witness :
  run_processing (init None None) 1 demo_order demo_source (Some []) = inr 36
  /\ stderr (locals (final_state (init None None) 1 demo_order demo_source
                       (Some [])))
     = [(Pair "" "Smith", AttributeError)]
  /\ pbar_n (locals (final_state (init None None) 1 demo_order demo_source
                       (Some [])))
     = 3.
Proof.
  destruct (per_item_accounting (init None None) 1 demo_order demo_source
              (Some []))
    as (_ & _ & _ & Hbar & Herr & _ & _ & Hrun).
  - lia.
  - exact demo_order_perm.
  - split; [exact Hrun|]. split; [|exact Hbar]. rewrite Herr. reflexivity.
Defined.

(** C3 as stated fails without an output file: the bar is created disabled
    there, and with the class of the tqdm library its counter does not
    advance, neither on one item nor over the run. *)
Lemma console_progress_counter_stays :
  let v := init_vars None in
  let s := final_state (bar := tqdm_library) (init None None) 1 demo_order
             demo_source None in
  pbar_disable v = true
  /\ pbar_n (collect (bar := tqdm_library) (init None None) v
               (Name "Ada Lovelace")) <> pbar_n v + 1
  /\ length (collected s) = 3
  /\ pbar_n (locals s) = 0.
Proof.
  repeat split. vm_compute. discriminate.
Qed.

(** What the sink does with a file: the strings of a successful item are
    appended to the buffer; when the buffer then holds at least 1000
    strings they are written in one operation, joined by newlines and
    followed by one, and the buffer is emptied.  When the source is
    exhausted a non-empty buffer is written the same way.  The strings
    written are, batch after batch, exactly the strings generated, each
    once and in the order of collection.  After the final write the buffer
    is empty or still holds the last batch. *)
Theorem buffered_file_output {bar : Tqdm} (generator : UsernameGenerator) (workers : nat)
    (as_completed : nat -> list WorkItem -> list WorkItem)
    (source : list WorkItem) :
  0 < workers ->
  (forall r chunk, Permutation (as_completed r chunk) chunk) ->
  (forall v item usernames writes,
      task generator item = inr usernames ->
      output_file v = Some writes ->
      let v' := collect generator v item in
      let buffer := output_buffer v ++ usernames in
      if 1000 <=? length buffer then
        output_file v' = Some (writes ++ [(join newline buffer ++ newline)%string])
        /\ output_buffer v' = []
      else
        output_file v' = Some writes /\ output_buffer v' = buffer)
  /\ let s := final_state generator workers as_completed source (Some []) in
     exists batches,
       output_file (locals s) = Some (map batch_text batches)
       /\ concat batches = flat_map (usernames_of generator) (collected s)
       /\ Permutation (collected s) source
       /\ Forall (fun b => b <> []) batches
       /\ Forall (fun b => 1000 <= length b) (removelast batches)
       /\ (output_buffer (locals s) = []
           \/ exists earlier, batches = earlier ++ [output_buffer (locals s)]).
Proof.
  intros Hw Hperm. split.
  - intros v item us writes Ht Hf v' buffer.
    pose proof (collect_success generator v item us Ht) as (_ & _ & _ & H).
    rewrite Hf in H. exact (proj2 H).
  - intros s.
    destruct (final_collected generator workers as_completed source Hw Hperm
                (Some [])) as [Hc Hl].
    fold s in Hc, Hl.
    assert (H0 : sink_ok [] (init_vars (Some []))).
    { exists []. cbn. unfold WRITE_BUFFER_SIZE. repeat split; auto. lia. }
    apply (fold_collect_sink generator (collected s)) in H0.
    cbn [app] in H0.
    destruct H0 as (batches & Hf & Hg & Hb & Hlen).
    assert (Hne : forall b : list string, WRITE_BUFFER_SIZE <= length b -> b <> []).
    { intros b H ->. unfold WRITE_BUFFER_SIZE in H. cbn in H. lia. }
    rewrite Hl. unfold write_rest. rewrite Hf.
    destruct (output_buffer (fold_left (collect generator) (collected s)
                               (init_vars (Some [])))) as [|u rest] eqn:Hbuf.
    + exists batches. rewrite Hf, Hbuf, app_nil_r in *.
      repeat split; auto.
      * eapply Forall_impl; [|exact Hb]. exact Hne.
      * clear -Hb. induction Hb as [|b l H Hl IH]; [constructor|].
        destruct l; [constructor|]. cbn [removelast].
        constructor; [exact H|exact IH].
    + exists (batches ++ [u :: rest]).
      cbn [output_file output_buffer batch_write].
      rewrite map_app, concat_app, removelast_last. cbn [map concat].
      rewrite app_nil_r.
      repeat split; auto.
      * apply Forall_app. split.
        -- eapply Forall_impl; [|exact Hb]. exact Hne.
        -- constructor; [discriminate|constructor].
      * right. now exists batches.
Qed.

Lemma buffered_file_output_witness :
  exists batches,
    output_file (locals (final_state (init None None) 1 demo_order demo_source
                           (Some [])))
    = Some (map batch_text batches)
    /\ concat batches
       = flat_map (usernames_of (init None None))
           (collected (final_state (init None None) 1 demo_order demo_source
                         (Some []))).
Proof.
  destruct (buffered_file_output (init None None) 1 demo_order demo_source)
    as (_ & batches & Hf & Hg & _).
  - lia.
  - exact demo_order_perm.
  - exists batches. split; [exact Hf|exact Hg].
Defined.


(** ** More on names *)

Lemma lstrip_blank (s : string) :
  sall isspace_char s = true -> lstrip s = EmptyString.
Proof.
  induction s as [|c s IH]; cbn [sall lstrip]; [reflexivity|].
  intros H. apply andb_true_iff in H. destruct H as [Hc Hs].
  rewrite Hc. auto.
Qed.

Lemma split_nil_blank (s : string) :
  PyStr.split s = [] -> sall isspace_char s = true.
Proof.
  induction s as [|c s IH]; [reflexivity|].
  cbn [PyStr.split sall].
  destruct (isspace_char c) eqn:Hc; [exact IH|].
  destruct s as [|c' s']; [discriminate|].
  destruct (isspace_char c'); [discriminate|].
  destruct (PyStr.split (String c' s')); discriminate.
Qed.

Lemma first_empty_split (name : string) :
  first (parse_name name) = EmptyString -> PyStr.split name = [].
Proof.
  unfold parse_name. cbn [first]. rewrite split_strip.
  pose proof (split_words name) as Hw.
  destruct (PyStr.split name) as [|w ws]; [reflexivity|].
  cbn. inversion Hw as [|? ? [Hn _] _]; subst.
  intros ->. discriminate.
Qed.

(** X1.  The first component of a parsed name is empty exactly when the name
    is blank: empty, or made of whitespace only. *)
Theorem parse_name_first_empty_iff (name : string) :
  first (parse_name name) = EmptyString <-> sall isspace_char name = true.
Proof.
  split.
  - intros H. apply split_nil_blank, first_empty_split, H.
  - apply parse_name_blank.
Qed.

Lemma split_cons2 (c c' : ascii) (s : string) :
  PyStr.split (String c (String c' s))
  = if isspace_char c then PyStr.split (String c' s)
    else if isspace_char c' then String c EmptyString :: PyStr.split (String c' s)
    else match PyStr.split (String c' s) with
         | w :: ws => String c w :: ws
         | [] => [String c EmptyString]
         end.
Proof. reflexivity. Qed.

Lemma word_cons (a : ascii) (w : string) :
  word (String a w) ->
  isspace_char a = false /\ (w = EmptyString \/ word w).
Proof.
  unfold word, spaceless. intros [_ Hs].
  cbn [sany] in Hs. apply negb_true_iff, orb_false_iff in Hs.
  destruct Hs as [Ha Hw]. split; [exact Ha|].
  destruct w; [now left|right]. split; [reflexivity|]. now rewrite Hw.
Qed.

Lemma split_word (w : string) : word w -> PyStr.split w = [w].
Proof.
  induction w as [|a w IH]; intros Hw; [destruct Hw; discriminate|].
  destruct (word_cons a w Hw) as [Ha [->|Hw']].
  - cbn. now rewrite Ha.
  - destruct w as [|b w']; [destruct Hw'; discriminate|].
    destruct (word_cons b w' Hw') as [Hb _].
    rewrite split_cons2, Ha, Hb, IH by assumption. reflexivity.
Qed.

Lemma split_word_space (w rest : string) (c : ascii) :
  word w -> isspace_char c = true ->
  PyStr.split (w ++ String c rest) = w :: PyStr.split rest.
Proof.
  intros Hw Hc.
  induction w as [|a w IH]; [destruct Hw; discriminate|].
  destruct (word_cons a w Hw) as [Ha [->|Hw']].
  - cbn [append]. rewrite split_cons2, Ha, Hc.
    f_equal. cbn [PyStr.split]. now rewrite Hc.
  - destruct w as [|b w']; [destruct Hw'; discriminate|].
    destruct (word_cons b w' Hw') as [Hb _].
    change ((String a (String b w') ++ String c rest)%string)
      with (String a (String b (w' ++ String c rest))).
    rewrite split_cons2, Ha, Hb.
    change (String b (w' ++ String c rest))
      with ((String b w' ++ String c rest)%string).
    rewrite IH by assumption. reflexivity.
Qed.

(** X2.  A pair of two single words is parsed back into its components: the
    full name built by [process_single_task] has the first name as first
    part, the last name as last part and no middle part, and the task
    evaluates every pattern on these parts. *)
Theorem pair_of_words_round_trip (self : UsernameGenerator) (fn ln : string) :
  word fn -> word ln ->
  let np := {| first := fn; middle := EmptyString; last := ln |} in
  parse_name (fn ++ " " ++ ln) = np
  /\ process_single_task self (prepare_args (Pair fn ln))
     = inr (flat_map (fun f => apply_format self f np) (formats self)).
Proof.
  intros Hf Hl np.
  assert (Hp : parse_name (fn ++ " " ++ ln) = np).
  { unfold parse_name. rewrite split_strip.
    change ((fn ++ " " ++ ln)%string) with ((fn ++ String " " ln)%string).
    rewrite split_word_space, split_word by (assumption || reflexivity).
    reflexivity. }
  split; [exact Hp|].
  pose proof (proj1 Hf) as Hfn. pose proof (proj1 Hl) as Hln.
  unfold process_single_task, prepare_args, generate_from_name.
  rewrite Hfn, Hln. cbn [andb].
  rewrite parse_name_strip, Hp.
  destruct (nonempty (strip (fn ++ " " ++ ln))) eqn:Hs.
  - cbn [negb]. unfold np at 1. cbn [first]. now rewrite Hfn.
  - exfalso.
    assert (H : PyStr.split (strip (fn ++ " " ++ ln)) = []).
    { destruct (strip (fn ++ " " ++ ln)); [reflexivity|discriminate]. }
    rewrite split_strip in H.
    change ((fn ++ " " ++ ln)%string) with ((fn ++ String " " ln)%string) in H.
    rewrite split_word_space in H by (assumption || reflexivity).
    discriminate.
Qed.

Lemma pair_of_words_round_trip_witness :
  parse_name "Ada Lovelace"
  = {| first := "Ada"; middle := EmptyString; last := "Lovelace" |}.
Proof.
  refine (proj1 (pair_of_words_round_trip (init None None) "Ada" "Lovelace" _ _));
    split; reflexivity.
Defined.

Lemma strip_empty_first (name : string) :
  nonempty (strip name) = false -> first (parse_name name) = EmptyString.
Proof.
  intros H. unfold parse_name.
  destruct (strip name); [reflexivity|discriminate].
Qed.

Lemma generate_from_name_formula (self : UsernameGenerator) (name : string) :
  generate_from_name self (Some name)
  = inr (if nonempty (first (parse_name name))
         then flat_map (fun f => apply_format self f (parse_name name))
                       (formats self)
         else []).
Proof.
  unfold generate_from_name. rewrite parse_name_strip.
  destruct (nonempty (strip name)) eqn:Hs; cbn [negb].
  - destruct (nonempty (first (parse_name name))); reflexivity.
  - now rewrite (strip_empty_first name Hs).
Qed.

(** X3.  The result of [generate_from_name] depends on the name through its
    parsed parts only: it is the concatenation, in the order of the
    patterns, of what each pattern yields on the parts, and nothing when
    the first part is empty.  Two names with the same parts (more or less
    whitespace, other words between the second and the last) give the same
    result. *)
Theorem generate_from_name_by_parts (self : UsernameGenerator)
    (name : string) :
  generate_from_name self (Some name)
  = inr (if nonempty (first (parse_name name))
         then flat_map (fun f => apply_format self f (parse_name name))
                       (formats self)
         else [])
  /\ forall name',
       parse_name name' = parse_name name ->
       generate_from_name self (Some name') = generate_from_name self (Some name).
Proof.
  split; [apply generate_from_name_formula|].
  intros name' E. now rewrite !generate_from_name_formula, E.
Qed.

(** ** What the generated strings look like *)

Lemma sany_app (p : ascii -> bool) (a b : string) :
  sany p (a ++ b) = sany p a || sany p b.
Proof.
  induction a as [|c a IH]; cbn [append sany]; [reflexivity|].
  now rewrite IH, orb_assoc.
Qed.

Lemma sall_app (p : ascii -> bool) (a b : string) :
  sall p (a ++ b) = sall p a && sall p b.
Proof.
  induction a as [|c a IH]; cbn [append sall]; [reflexivity|].
  now rewrite IH, andb_assoc.
Qed.

Lemma isupper_lower_char (c : ascii) : isupper_char (lower_char c) = false.
Proof.
  unfold lower_char.
  destruct (isupper_char c) eqn:U; [|exact U].
  unfold isupper_char, between, code in *.
  apply andb_true_iff in U. destruct U as [U1 U2].
  apply Nat.leb_le in U1. apply Nat.leb_le in U2.
  rewrite nat_ascii_embedding by lia.
  apply andb_false_iff. right. apply Nat.leb_gt. lia.
Qed.

Lemma lower_no_upper (s : string) : sany isupper_char (lower s) = false.
Proof.
  unfold lower. induction s as [|c s IH]; cbn [smap sany]; [reflexivity|].
  now rewrite isupper_lower_char, IH.
Qed.

Lemma digit_not_upper (c : ascii) :
  isdigit_char c = true -> isupper_char c = false.
Proof.
  unfold isdigit_char, isupper_char, between. intros H.
  apply andb_true_iff in H. destruct H as [_ H]. apply Nat.leb_le in H.
  apply andb_false_iff. left. apply Nat.leb_gt. lia.
Qed.

Lemma digits_no_upper (s : string) :
  sall isdigit_char s = true -> sany isupper_char s = false.
Proof.
  induction s as [|c s IH]; cbn [sall sany]; [reflexivity|].
  intros H. apply andb_true_iff in H. destruct H as [Hc Hs].
  now rewrite (digit_not_upper c Hc), IH.
Qed.

Lemma string_of_uint_digits (d : Decimal.uint) :
  sall isdigit_char (NilEmpty.string_of_uint d) = true.
Proof.
  induction d; cbn [NilEmpty.string_of_uint sall]; try rewrite IHd; reflexivity.
Qed.

(** [str(i)] is a non-empty string of digits. *)
Lemma str_digits (i : nat) : is_digits (str i) = true.
Proof.
  unfold is_digits, str, NilZero.string_of_uint.
  pose proof (string_of_uint_digits (Nat.to_uint i)) as H.
  destruct (Nat.to_uint i); try reflexivity;
    cbn [NilEmpty.string_of_uint nonempty andb] in *; exact H.
Qed.

Lemma process_format_checked (self : UsernameGenerator) (f : string)
    (np : name_parts) (r : string) :
  _process_format self f np = Some r ->
  nonempty r = true /\ isspace r = false
  /\ (case_sensitive self = false -> sany isupper_char r = false).
Proof.
  unfold _process_format.
  set (text := keyword_pass (bracket_pass f np) np).
  intros H.
  destruct (nonempty (case_pass self f text)) eqn:Hn; [|discriminate H].
  destruct (isspace (case_pass self f text)) eqn:Hs; [discriminate H|].
  cbn [andb negb] in H. injection H as <-. repeat split; auto.
  intros Hcs. unfold case_pass in *. rewrite Hcs in *. cbn [negb] in *.
  rewrite andb_true_r in *.
  destruct (nonempty text) eqn:Ht; [apply lower_no_upper|].
  cbn [andb] in Hn. congruence.
Qed.

Lemma numbered_checked (base : string) (n : nat) :
  nonempty base = true -> isspace base = false ->
  Forall (fun u => nonempty u = true /\ isspace u = false
                   /\ (sany isupper_char base = false ->
                       sany isupper_char u = false))
         (map (fun i => (base ++ str i)%string) (seq 0 n)).
Proof.
  intros Hn Hs. apply Forall_forall. intros u Hu.
  apply in_map_iff in Hu. destruct Hu as (i & <- & _).
  pose proof (str_digits i) as Hd. unfold is_digits in Hd.
  apply andb_true_iff in Hd. destruct Hd as [_ Hd].
  unfold isspace in *. rewrite Hn in Hs. cbn [andb] in Hs.
  repeat split.
  - destruct base; [discriminate|reflexivity].
  - rewrite sall_app, Hs. apply andb_false_r.
  - intros Hb. now rewrite sany_app, Hb, (digits_no_upper _ Hd).
Qed.

Lemma apply_format_checked (self : UsernameGenerator) (f : string)
    (np : name_parts) :
  Forall (fun u => nonempty u = true /\ isspace u = false
                   /\ (case_sensitive self = false ->
                       sany isupper_char u = false))
         (apply_format self f np).
Proof.
  unfold apply_format.
  destruct (Re.re_numeric_match f) as [[[kw br] num]|].
  - destruct (_process_format self kw np) as [base|] eqn:Hb; [|constructor].
    destruct (process_format_checked self kw np base Hb) as (Hn & Hs & Hl).
    eapply Forall_impl; [|apply numbered_checked; assumption].
    intros u (H1 & H2 & H3). auto.
  - destruct (_process_format self f np) as [u|] eqn:Hu; [|constructor].
    constructor; [|constructor].
    apply (process_format_checked self f np u Hu).
Qed.

Lemma generate_from_name_checked (self : UsernameGenerator) (name : string) :
  exists usernames,
    generate_from_name self (Some name) = inr usernames
    /\ Forall (fun u => nonempty u = true /\ isspace u = false
                        /\ (case_sensitive self = false ->
                            sany isupper_char u = false)) usernames.
Proof.
  rewrite generate_from_name_formula.
  eexists. split; [reflexivity|].
  destruct (nonempty (first (parse_name name))); [|constructor].
  apply Forall_flat_map, Forall_forall. intros f _.
  apply apply_format_checked.
Qed.

(** X4.  Every string [generate_from_name] returns is non-empty and not made of
    whitespace only, whatever the name and the patterns. *)
Theorem generated_strings_not_blank (self : UsernameGenerator)
    (name : string) :
  exists usernames,
    generate_from_name self (Some name) = inr usernames
    /\ Forall (fun u => nonempty u = true /\ isspace u = false) usernames.
Proof.
  destruct (generate_from_name_checked self name) as (us & E & H).
  exists us. split; [exact E|].
  eapply Forall_impl; [|exact H]. intros u (H1 & H2 & _). auto.
Qed.

(** X5.  Without case sensitivity no string [generate_from_name] returns has an
    upper-case letter, on the numeric path as on the ordinary one. *)
Theorem case_insensitive_output_is_lowercase (self : UsernameGenerator)
    (name : string) :
  case_sensitive self = false ->
  exists usernames,
    generate_from_name self (Some name) = inr usernames
    /\ Forall (fun u => sany isupper_char u = false) usernames.
Proof.
  intros Hcs.
  destruct (generate_from_name_checked self name) as (us & E & H).
  exists us. split; [exact E|].
  eapply Forall_impl; [|exact H]. intros u (_ & _ & H3). auto.
Qed.

Lemma case_insensitive_output_is_lowercase_witness :
  exists usernames,
    generate_from_name (init (Some false) None) (Some "Ada LOVELACE")
    = inr usernames
    /\ Forall (fun u => sany isupper_char u = false) usernames.
Proof.
  apply (case_insensitive_output_is_lowercase (init (Some false) None)
           "Ada LOVELACE").
  reflexivity.
Defined.

(** A pattern that is not a numeric-suffix pattern yields at most one
    string, so a generator without numeric-suffix patterns returns at most
    as many strings as it has patterns. *)
Lemma apply_format_at_most_one (self : UsernameGenerator) (f : string)
    (np : name_parts) :
  Re.re_numeric_match f = None -> length (apply_format self f np) <= 1.
Proof.
  intros H. unfold apply_format. rewrite H.
  destruct (_process_format self f np); cbn; lia.
Qed.

Lemma usernames_of_bound (self : UsernameGenerator) (item : WorkItem) :
  Forall (fun f => Re.re_numeric_match f = None) (formats self) ->
  length (usernames_of self item) <= length (formats self).
Proof.
  intros Hf.
  assert (Hg : forall name,
    length (match generate_from_name self name with
            | inr us => us
            | inl _ => []
            end) <= length (formats self)).
  { intros [name|]; [|apply Nat.le_0_l].
    rewrite generate_from_name_formula.
    destruct (nonempty (first (parse_name name))); [|apply Nat.le_0_l].
    revert Hf. generalize (formats self) as l.
    induction l as [|f l IH]; intros Hf; cbn [flat_map length];
      [apply Nat.le_0_l|].
    inversion Hf as [|? ? Hf1 Hf2]; subst.
    rewrite length_app. specialize (IH Hf2).
    pose proof (apply_format_at_most_one self f (parse_name name) Hf1). lia. }
  unfold usernames_of, task, process_single_task.
  destruct (prepare_args item) as [[name fn] ln]. apply Hg.
Qed.

(** ** The length modifier *)

Lemma length_append (a b : string) :
  String.length (a ++ b) = String.length a + String.length b.
Proof.
  induction a as [|c a IH]; cbn [append String.length]; [reflexivity|].
  now rewrite IH.
Qed.

Lemma sub_from_skipped {M : Type} (at_ : string -> option (M * nat))
    (repl : M -> string) (s : string) (skip : nat) :
  String.length s <= skip -> Re.sub_from at_ repl skip s = EmptyString.
Proof.
  revert skip. induction s as [|c s IH]; intros skip H; [reflexivity|].
  cbn [String.length] in H. destruct skip as [|k]; [lia|].
  cbn [Re.sub_from]. apply IH. lia.
Qed.

(** A pattern that is one match of the expression, from its first to its
    last character, is replaced as a whole. *)
Lemma sub_whole_match {M : Type} (at_ : string -> option (M * nat))
    (repl : M -> string) (s : string) (m : M) (len : nat) :
  at_ s = Some (m, len) -> nonempty s = true -> String.length s <= len ->
  Re.sub at_ repl s = repl m.
Proof.
  intros Hat Hne Hlen. destruct s as [|c s]; [discriminate|].
  unfold Re.sub. cbn [Re.sub_from]. rewrite Hat.
  cbn [String.length] in Hlen.
  rewrite sub_from_skipped by lia. apply append_empty_r.
Qed.

Lemma re_bracket_at_single (kw ds : string) :
  In kw keywords -> is_digits ds = true ->
  Re.re_bracket_at (kw ++ bracket_text (Some ds))
  = Some (kw, ds, String.length (kw ++ bracket_text (Some ds))).
Proof.
  intros Hkw Hds. unfold Re.re_bracket_at.
  rewrite keyword_at_app by assumption.
  rewrite <- (append_empty_r (bracket_text (Some ds))) at 1.
  rewrite bracket_at_app by assumption.
  rewrite length_append. unfold bracket_text.
  cbn [append String.length]. rewrite length_append. cbn [String.length].
  do 2 f_equal. lia.
Qed.

Lemma take_length (n : nat) (s : string) :
  String.length (take n s) = Nat.min n (String.length s).
Proof.
  revert n. induction s as [|c s IH]; intros [|n]; cbn; auto.
Qed.

Lemma take_all (n : nat) (s : string) :
  String.length s <= n -> take n s = s.
Proof.
  revert n. induction s as [|c s IH]; intros [|n] H; cbn in *;
    try reflexivity; try lia.
  f_equal. apply IH. lia.
Qed.

Lemma keyword_nonempty (kw rest : string) :
  In kw keywords -> nonempty (kw ++ rest) = true.
Proof. intros [<-|[<-|[<-|[]]]]; reflexivity. Qed.

(** X6.  The pattern [keyword[n]] on its own: the first pass replaces it by the
    first [n] characters of the value of the keyword, the whole value when
    it has no more than [n] characters, never more than there are; with
    [n = 0] the pattern yields nothing. *)
Theorem bracket_truncation (self : UsernameGenerator) (np : name_parts)
    (kw ds : string) :
  In kw keywords -> is_digits ds = true ->
  let value := get np kw in
  let pattern := (kw ++ "[" ++ ds ++ "]")%string in
  bracket_pass pattern np = take (int ds) value
  /\ String.length (bracket_pass pattern np)
     = Nat.min (int ds) (String.length value)
  /\ (String.length value <= int ds -> bracket_pass pattern np = value)
  /\ (int ds = 0 -> apply_format self pattern np = []).
Proof.
  intros Hkw Hds value pattern.
  assert (Hb : bracket_pass pattern np = take (int ds) value).
  { unfold bracket_pass, pattern.
    change ((kw ++ "[" ++ ds ++ "]")%string)
      with ((kw ++ bracket_text (Some ds))%string).
    rewrite (sub_whole_match _ _ _ _ _ (re_bracket_at_single kw ds Hkw Hds))
      by (auto using keyword_nonempty).
    unfold replace_with_length. fold value.
    destruct value; [now destruct (int ds)|reflexivity]. }
  rewrite Hb. repeat split.
  - apply take_length.
  - apply take_all.
  - intros H0. unfold apply_format.
    assert (Hn : Re.re_numeric_match pattern = None).
    { unfold Re.re_numeric_match, pattern.
      change ((kw ++ "[" ++ ds ++ "]")%string)
        with ((kw ++ bracket_text (Some ds))%string).
      rewrite keyword_at_app by assumption.
      rewrite <- (append_empty_r (bracket_text (Some ds))) at 1.
      rewrite bracket_at_app by assumption. reflexivity. }
    rewrite Hn. unfold _process_format. rewrite Hb, H0.
    replace (take 0 value) with EmptyString by (now destruct value).
    reflexivity.
Qed.

Lemma bracket_truncation_witness :
  bracket_pass "first[10]" (parse_name "Ada Lovelace") = "Ada".
Proof.
  refine (proj1 (bracket_truncation (init None None)
                   (parse_name "Ada Lovelace") "first" "10" _ _)).
  - cbn. auto.
  - reflexivity.
Defined.

(** ** Patterns without lower-case letters *)

Lemma keyword_at_not_lower (c : ascii) (s : string) :
  islower_char c = false -> Re.keyword_at (String c s) = None.
Proof.
  intros H. unfold Re.keyword_at. cbn [Re.after_prefix].
  destruct (Ascii.eqb_spec "f" c) as [<-|_]; [discriminate H|].
  destruct (Ascii.eqb_spec "m" c) as [<-|_]; [discriminate H|].
  destruct (Ascii.eqb_spec "l" c) as [<-|_]; [discriminate H|].
  reflexivity.
Qed.

Lemma re_bracket_at_not_lower (c : ascii) (s : string) :
  islower_char c = false -> Re.re_bracket_at (String c s) = None.
Proof.
  intros H. unfold Re.re_bracket_at. now rewrite keyword_at_not_lower.
Qed.

Lemma re_keywords_at_not_lower (c : ascii) (s : string) :
  islower_char c = false -> Re.re_keywords_at (String c s) = None.
Proof.
  intros H. unfold Re.re_keywords_at. now rewrite keyword_at_not_lower.
Qed.

Lemma sub_no_lower (np : name_parts) (s : string) :
  sany islower_char s = false -> bracket_pass s np = s.
Proof.
  unfold bracket_pass, Re.sub.
  induction s as [|c s IH]; [reflexivity|].
  cbn [sany]. intros H. apply orb_false_iff in H. destruct H as [Hc Hs].
  cbn [Re.sub_from].
  rewrite re_bracket_at_not_lower by assumption.
  now rewrite IH.
Qed.

Lemma split_no_lower (s : string) :
  sany islower_char s = false -> Re.split Re.re_keywords_at s = [s].
Proof.
  unfold Re.split.
  induction s as [|c s IH]; [reflexivity|].
  cbn [sany]. intros H. apply orb_false_iff in H. destruct H as [Hc Hs].
  cbn [Re.split_from].
  rewrite re_keywords_at_not_lower by assumption.
  now rewrite IH.
Qed.

Lemma lookup_no_lower (np : name_parts) (s : string) :
  sany islower_char s = false -> lookup np s = None.
Proof.
  intros H. unfold lookup.
  destruct (String.eqb_spec s "first") as [->|_]; [discriminate H|].
  destruct (String.eqb_spec s "middle") as [->|_]; [discriminate H|].
  destruct (String.eqb_spec s "last") as [->|_]; [discriminate H|].
  reflexivity.
Qed.

Lemma upper_no_lower (s : string) :
  sany islower_char s = false -> upper s = s.
Proof.
  unfold upper. induction s as [|c s IH]; [reflexivity|].
  cbn [sany smap]. intros H. apply orb_false_iff in H. destruct H as [Hc Hs].
  unfold upper_char at 1. now rewrite Hc, IH.
Qed.

Lemma isspace_lower (s : string) : isspace (lower s) = isspace s.
Proof.
  unfold isspace. rewrite nonempty_lower. f_equal.
  unfold lower. induction s as [|c s IH]; cbn [smap sall]; [reflexivity|].
  now rewrite isspace_lower_char, IH.
Qed.

(** X7.  A pattern without lower-case letters never takes anything from the
    name: the keywords are matched in lower case only, so both passes leave
    the pattern as it is, and what is yielded is the pattern itself, or its
    lower-cased text when the generator is not case sensitive. *)
Theorem pattern_without_lowercase_is_verbatim (self : UsernameGenerator)
    (np : name_parts) (pattern : string) :
  sany islower_char pattern = false ->
  nonempty pattern = true -> isspace pattern = false ->
  apply_format self pattern np
  = [if case_sensitive self then pattern else lower pattern].
Proof.
  intros Hl Hn Hs. unfold apply_format.
  assert (Hnum : Re.re_numeric_match pattern = None).
  { unfold Re.re_numeric_match. destruct pattern as [|c p]; [discriminate|].
    cbn [sany] in Hl. apply orb_false_iff in Hl.
    now rewrite keyword_at_not_lower. }
  rewrite Hnum. unfold _process_format, keyword_pass.
  rewrite sub_no_lower, split_no_lower by assumption.
  cbn [map join]. rewrite lookup_no_lower by assumption.
  assert (Hc : case_pass self pattern pattern
               = if case_sensitive self then pattern else lower pattern).
  { unfold case_pass. rewrite Hn.
    destruct (case_sensitive self); cbn [negb andb]; [|reflexivity].
    destruct pattern as [|c0 p]; [reflexivity|].
    destruct (isupper_char c0 && (1 <? String.length (String c0 p))) eqn:Hu;
      [|reflexivity].
    apply andb_true_iff in Hu. destruct Hu as [Hu _].
    unfold isupper. rewrite Hl. cbn [sany negb]. rewrite Hu. cbn [orb andb].
    now apply upper_no_lower. }
  rewrite Hc.
  destruct (case_sensitive self).
  - now rewrite Hn, Hs.
  - now rewrite nonempty_lower, isspace_lower, Hn, Hs.
Qed.

Lemma pattern_without_lowercase_is_verbatim_witness :
  apply_format (init None None) "FIRST.LAST" (parse_name "Ada Lovelace")
  = ["FIRST.LAST"].
Proof.
  apply (pattern_without_lowercase_is_verbatim (init None None)
           (parse_name "Ada Lovelace") "FIRST.LAST"); reflexivity.
Defined.

(** ** More on the pipeline *)

Lemma write_rest_keeps (v : vars) :
  output_buffer (write_rest v) = output_buffer v
  /\ stdout (write_rest v) = stdout v
  /\ stderr (write_rest v) = stderr v
  /\ total_generated (write_rest v) = total_generated v
  /\ pbar_n (write_rest v) = pbar_n v
  /\ (output_file v = None -> output_file (write_rest v) = None).
Proof.
  unfold write_rest.
  destruct (output_file v) eqn:Hf; [destruct (output_buffer v) eqn:Hb|];
    cbn [output_buffer stdout stderr total_generated pbar_n output_file];
    repeat split; auto; congruence.
Qed.

Section MoreRunFacts.

Context {bar : Tqdm}.

Variable generator : UsernameGenerator.
Variable workers : nat.
Variable as_completed : nat -> list WorkItem -> list WorkItem.
Variable source : list WorkItem.

Hypothesis workers_positive : 0 < workers.
Hypothesis as_completed_perm :
  forall r chunk, Permutation (as_completed r chunk) chunk.

Local Abbreviation final_of :=
  (final_state generator workers as_completed source).

(** The total at the end, whatever the sink. *)
Lemma final_total (out : option (list string)) :
  total_generated (locals (final_of out))
  = list_sum (map (fun item => length (usernames_of generator item)) source).
Proof.
  destruct (final_collected generator workers as_completed source
              workers_positive as_completed_perm out) as [Hc Hl].
  rewrite Hl.
  destruct (write_rest_keeps
              (fold_left (collect generator) (collected (final_of out))
                         (init_vars out))) as (_ & _ & _ & -> & _).
  rewrite fold_collect_total. cbn [init_vars total_generated].
  apply Permutation_list_sum, Permutation_map, Hc.
Qed.

Lemma final_generated_length (out : option (list string)) :
  length (flat_map (usernames_of generator) (collected (final_of out)))
  = total_generated (locals (final_of out)).
Proof.
  destruct (final_collected generator workers as_completed source
              workers_positive as_completed_perm out) as [Hc _].
  rewrite final_total, length_flat_map.
  apply Permutation_list_sum, Permutation_map, Hc.
Qed.

(** The batches written to a file that was empty at the start. *)
Lemma final_batches :
  exists batches,
    output_file (locals (final_of (Some []))) = Some (map batch_text batches)
    /\ concat batches
       = flat_map (usernames_of generator) (collected (final_of (Some [])))
    /\ Forall (fun b => b <> []) batches.
Proof.
  destruct (final_collected generator workers as_completed source
              workers_positive as_completed_perm (Some [])) as [_ Hl].
  assert (H0 : sink_ok [] (init_vars (Some []))).
  { exists []. cbn. unfold WRITE_BUFFER_SIZE. repeat split; auto. lia. }
  apply (fold_collect_sink generator (collected (final_of (Some [])))) in H0.
  cbn [app] in H0. destruct H0 as (batches & Hf & Hg & Hb & Hlen).
  assert (Hne : Forall (fun b : list string => b <> []) batches).
  { eapply Forall_impl; [|exact Hb].
    intros b H ->. unfold WRITE_BUFFER_SIZE in H. cbn in H. lia. }
  rewrite Hl. unfold write_rest. rewrite Hf.
  destruct (output_buffer (fold_left (collect generator)
              (collected (final_of (Some []))) (init_vars (Some []))))
    as [|u rest] eqn:Hbuf.
  - exists batches. rewrite Hf, app_nil_r in *. auto.
  - exists (batches ++ [u :: rest]).
    cbn [output_file batch_write].
    rewrite map_app, concat_app. cbn [map concat]. rewrite app_nil_r.
    repeat split; auto.
    apply Forall_app. split; [exact Hne|].
    constructor; [discriminate|constructor].
Qed.

End MoreRunFacts.

Lemma join_empty_cons (x : string) (l : list string) :
  join EmptyString (x :: l) = (x ++ join EmptyString l)%string.
Proof.
  destruct l; cbn [join append]; [now rewrite append_empty_r|reflexivity].
Qed.

Lemma join_empty_app (a b : list string) :
  join EmptyString (a ++ b)
  = (join EmptyString a ++ join EmptyString b)%string.
Proof.
  induction a as [|x a IH]; [reflexivity|].
  cbn [app]. now rewrite !join_empty_cons, IH, append_assoc.
Qed.

Lemma lines_text_app (a b : list string) :
  lines_text (a ++ b) = (lines_text a ++ lines_text b)%string.
Proof. unfold lines_text. now rewrite map_app, join_empty_app. Qed.

(** One write of a non-empty buffer is its strings, each followed by a
    newline. *)
Lemma batch_text_lines (b : list string) :
  b <> [] -> batch_text b = lines_text b.
Proof.
  unfold batch_text, lines_text.
  induction b as [|x b IH]; [congruence|]. intros _.
  destruct b as [|y b].
  - reflexivity.
  - change (join newline (x :: y :: b))
      with ((x ++ newline ++ join newline (y :: b))%string).
    cbn [map]. rewrite join_empty_cons.
    rewrite !append_assoc, IH by discriminate. reflexivity.
Qed.

Lemma batches_text (batches : list (list string)) :
  Forall (fun b => b <> []) batches ->
  join EmptyString (map batch_text batches) = lines_text (concat batches).
Proof.
  induction 1 as [|b l Hb Hl IH]; [reflexivity|].
  cbn [map concat].
  now rewrite join_empty_cons, lines_text_app, IH, batch_text_lines.
Qed.

(** With a file nothing is printed. *)
Lemma fold_collect_file_stdout {bar : Tqdm} (generator : UsernameGenerator)
    (items : list WorkItem) (generated : list string) (v : vars) :
  sink_ok generated v ->
  stdout (fold_left (collect generator) items v) = stdout v.
Proof.
  revert generated v.
  induction items as [|x l IH]; intros generated v H; [reflexivity|].
  cbn [fold_left].
  rewrite (IH _ _ (collect_sink generator generated v x H)).
  destruct H as (batches & Hf & _).
  destruct (task generator x) as [e|us] eqn:Ht.
  - now destruct (collect_failure generator v x e Ht) as (_ & _ & _ & _ & _ & E).
  - pose proof (collect_success generator v x us Ht) as (_ & _ & _ & E).
    rewrite Hf in E. tauto.
Qed.

(** X9.  Without numeric-suffix patterns the total is at most the number of
    items times the number of patterns, the figure [main] announces. *)
Theorem total_within_expectation {bar : Tqdm} (generator : UsernameGenerator)
    (workers : nat) (as_completed : nat -> list WorkItem -> list WorkItem)
    (source : list WorkItem) (out : option (list string)) :
  0 < workers ->
  (forall r chunk, Permutation (as_completed r chunk) chunk) ->
  Forall (fun f => Re.re_numeric_match f = None) (formats generator) ->
  exists total,
    run_processing generator workers as_completed source out = inr total
    /\ total <= length source * length (formats generator).
Proof.
  intros Hw Hperm Hf. eexists. split.
  - unfold run_processing. destruct workers; [lia|]. reflexivity.
  - rewrite (final_total generator workers as_completed source Hw Hperm out).
    clear Hw Hperm. unfold list_sum.
    induction source as [|item l IH]; cbn [map fold_right length]; [lia|].
    pose proof (usernames_of_bound generator item Hf). lia.
Qed.

Lemma total_within_expectation_witness :
  exists total,
    run_processing (init None None) 1 demo_order demo_source None = inr total
    /\ total <= 3 * 18.
Proof.
  apply (total_within_expectation (init None None) 1 demo_order demo_source None).
  - lia.
  - exact demo_order_perm.
  - repeat constructor.
Defined.

(** X10.  Without an output file every generated string is printed, in the order
    of collection, nothing is buffered or written to a file, and the total
    returned is the number of lines printed. *)
Theorem console_output {bar : Tqdm} (generator : UsernameGenerator) (workers : nat)
    (as_completed : nat -> list WorkItem -> list WorkItem)
    (source : list WorkItem) :
  0 < workers ->
  (forall r chunk, Permutation (as_completed r chunk) chunk) ->
  let s := final_state generator workers as_completed source None in
  stdout (locals s) = flat_map (usernames_of generator) (collected s)
  /\ Permutation (collected s) source
  /\ output_file (locals s) = None
  /\ output_buffer (locals s) = []
  /\ run_processing generator workers as_completed source None
     = inr (length (stdout (locals s))).
Proof.
  intros Hw Hperm s.
  destruct (final_collected generator workers as_completed source Hw Hperm None)
    as [Hc Hl]. fold s in Hc, Hl.
  destruct (fold_collect_stdout generator (collected s) (init_vars None) eq_refl)
    as (F1 & F2 & F3).
  destruct (write_rest_keeps
              (fold_left (collect generator) (collected s) (init_vars None)))
    as (W1 & W2 & _ & _ & _ & W3).
  assert (Hout : stdout (locals s)
                 = flat_map (usernames_of generator) (collected s)).
  { rewrite Hl, W2, F3. reflexivity. }
  repeat split; auto.
  - rewrite Hl. auto.
  - rewrite Hl, W1, F2. reflexivity.
  - unfold run_processing. destruct workers; [lia|]. cbn [Nat.eqb].
    fold s. rewrite Hout. f_equal. symmetry.
    apply (final_generated_length generator _ as_completed source Hw Hperm None).
Qed.

Lemma console_output_witness :
  output_buffer
    (locals (final_state (init None None) 1 demo_order demo_source None)) = [].
Proof.
  refine (proj1 (proj2 (proj2 (proj2
            (console_output (init None None) 1 demo_order demo_source _ _))))).
  - lia.
  - exact demo_order_perm.
Defined.

(** X11.  With an output file that starts empty, what has been written when the
    run ends is one line per generated string: each string followed by a
    newline, in the order of collection; and the total returned is the
    number of these strings. *)
Theorem file_content {bar : Tqdm} (generator : UsernameGenerator) (workers : nat)
    (as_completed : nat -> list WorkItem -> list WorkItem)
    (source : list WorkItem) :
  0 < workers ->
  (forall r chunk, Permutation (as_completed r chunk) chunk) ->
  let s := final_state generator workers as_completed source (Some []) in
  let generated := flat_map (usernames_of generator) (collected s) in
  exists writes,
    output_file (locals s) = Some writes
    /\ join EmptyString writes = lines_text generated
    /\ stdout (locals s) = []
    /\ run_processing generator workers as_completed source (Some [])
       = inr (length generated).
Proof.
  intros Hw Hperm s generated.
  destruct (final_batches generator workers as_completed source Hw Hperm)
    as (batches & Hf & Hg & Hne). fold s in Hf, Hg.
  exists (map batch_text batches). repeat split.
  - exact Hf.
  - rewrite batches_text by assumption. now rewrite Hg.
  - destruct (final_collected generator workers as_completed source Hw Hperm
                (Some [])) as [_ Hl]. fold s in Hl. rewrite Hl.
    destruct (write_rest_keeps
                (fold_left (collect generator) (collected s)
                           (init_vars (Some [])))) as (_ & -> & _).
    apply (fold_collect_file_stdout generator (collected s) []).
    exists []. cbn. unfold WRITE_BUFFER_SIZE. repeat split; auto. lia.
  - unfold run_processing. destruct workers; [lia|]. cbn [Nat.eqb].
    fold s. f_equal. symmetry.
    apply (final_generated_length generator _ as_completed source Hw Hperm).
Qed.

Lemma file_content_witness :
  exists writes,
    output_file
      (locals (final_state (init None None) 1 demo_order demo_source (Some [])))
    = Some writes
    /\ join EmptyString writes
       = lines_text
           (flat_map (usernames_of (init None None))
              (collected (final_state (init None None) 1 demo_order
                            demo_source (Some [])))).
Proof.
  destruct (file_content (init None None) 1 demo_order demo_source)
    as (writes & Hf & Ht & _).
  - lia.
  - exact demo_order_perm.
  - exists writes. split; [exact Hf|exact Ht].
Defined.

(** X12.  Between two actions of the controller the buffer holds fewer than 1000
    strings, however many the source gives: what is generated and not yet
    written stays bounded. *)
Theorem buffer_stays_small {bar : Tqdm} (generator : UsernameGenerator) (workers : nat)
    (as_completed : nat -> list WorkItem -> list WorkItem)
    (source : list WorkItem) (out : option (list string)) (n : nat) :
  0 < workers ->
  (forall r chunk, Permutation (as_completed r chunk) chunk) ->
  out = None \/ out = Some [] ->
  length (output_buffer
            (locals (run generator workers as_completed source out n))) < 1000.
Proof.
  intros Hw Hperm Hout.
  destruct (inv_run generator workers as_completed source Hw Hperm out n)
    as (_ & _ & Hl & _).
  rewrite Hl.
  set (s := run generator workers as_completed source out n).
  assert (H : length (output_buffer
                        (fold_left (collect generator) (collected s)
                                   (init_vars out))) < 1000).
  { destruct Hout as [->| ->].
    - destruct (fold_collect_stdout generator (collected s) (init_vars None)
                  eq_refl) as (_ & -> & _). cbn. lia.
    - assert (H0 : sink_ok [] (init_vars (Some []))).
      { exists []. cbn. unfold WRITE_BUFFER_SIZE. repeat split; auto. lia. }
      apply (fold_collect_sink generator (collected s)) in H0.
      destruct H0 as (batches & _ & _ & _ & Hlen). exact Hlen. }
  destruct (finished s); [|exact H].
  now destruct (write_rest_keeps
                  (fold_left (collect generator) (collected s) (init_vars out)))
    as (-> & _).
Qed.

Lemma buffer_stays_small_witness :
  length (output_buffer
            (locals (run (init None None) 1 demo_order demo_source (Some []) 3)))
  < 1000.
Proof.
  apply (buffer_stays_small (init None None) 1 demo_order demo_source (Some []) 3).
  - lia.
  - exact demo_order_perm.
  - now right.
Defined.

(** ** Loading the lists *)

Lemma lstrip_head (s : string) :
  lstrip s = EmptyString
  \/ exists c r, lstrip s = String c r /\ isspace_char c = false.
Proof.
  induction s as [|c s IH]; [now left|].
  cbn [lstrip]. destruct (isspace_char c) eqn:Hc; [exact IH|].
  right. eauto.
Qed.

Lemma rstrip_keeps_head (c : ascii) (r : string) :
  isspace_char c = false -> exists r', rstrip (String c r) = String c r'.
Proof.
  intros Hc. cbn [rstrip]. rewrite Hc. destruct (rstrip r); eauto.
Qed.

Lemma rstrip_idempotent (s : string) : rstrip (rstrip s) = rstrip s.
Proof.
  induction s as [|c s IH]; [reflexivity|].
  cbn [rstrip]. destruct (rstrip s) as [|d r] eqn:Hr.
  - destruct (isspace_char c) eqn:Hc; [reflexivity|].
    cbn [rstrip]. now rewrite Hc.
  - cbn [rstrip] in *. now rewrite IH.
Qed.

Lemma strip_idempotent (s : string) : strip (strip s) = strip s.
Proof.
  unfold strip.
  destruct (lstrip_head s) as [->|(c & r & -> & Hc)]; [reflexivity|].
  destruct (rstrip_keeps_head c r Hc) as [r' E].
  rewrite E. cbn [lstrip]. rewrite Hc, <- E. apply rstrip_idempotent.
Qed.

Lemma strip_nonempty_first (s : string) :
  nonempty (strip s) = true -> nonempty (first (parse_name s)) = true.
Proof.
  intros H.
  destruct (first (parse_name s)) eqn:Hf; [|reflexivity].
  apply first_empty_split, split_nil_blank, lstrip_blank in Hf.
  unfold strip in H. rewrite Hf in H. discriminate.
Qed.

(** X14.  [load_names] keeps the lines that are not blank, in their order and
    stripped: every name it returns is non-empty, has no whitespace at
    either end, and has a non-empty first part, so that none is dropped by
    [generate_from_name].  A missing file raises. *)
Theorem load_names_usable (lines : list string) :
  load_names None = inl FileNotFoundError
  /\ exists names,
       load_names (Some lines) = inr names
       /\ length names <= length lines
       /\ Forall (fun n => nonempty n = true /\ strip n = n
                           /\ nonempty (first (parse_name n)) = true) names.
Proof.
  split; [reflexivity|]. eexists. split; [reflexivity|]. split.
  - rewrite length_map. apply filter_length_le.
  - apply Forall_forall. intros n Hn.
    apply in_map_iff in Hn. destruct Hn as (line & <- & Hin).
    apply filter_In in Hin. destruct Hin as [_ Hne].
    repeat split.
    + exact Hne.
    + apply strip_idempotent.
    + rewrite parse_name_strip. now apply strip_nonempty_first.
Qed.

(** ** [main] *)

Lemma load_names_nonempty (lines : list string) (n : string) :
  In n (map strip (filter (fun line => nonempty (strip line)) lines)) ->
  nonempty n = true.
Proof.
  intros Hn. apply in_map_iff in Hn. destruct Hn as (line & <- & Hin).
  apply filter_In in Hin. tauto.
Qed.

Lemma failures_nil (generator : UsernameGenerator) (items : list WorkItem) :
  (forall item, In item items -> exists us, task generator item = inr us) ->
  failures generator items = [].
Proof.
  induction items as [|x l IH]; intros H; [reflexivity|].
  unfold failures in *. cbn [flat_map].
  destruct (H x (or_introl eq_refl)) as [us ->].
  apply IH. intros item Hin. apply H. now right.
Qed.

(** When no file is missing, [main] gets its source and its patterns; the
    number it takes for the number of items is the length of the source,
    and no task of the source raises. *)
Lemma main_inputs_present (args : Args) (fs : string -> option (list string)) :
  (forall p, In p (files_read args) -> fs p <> None) ->
  exists source fmts,
    main_source args fs = inr (source, length source)
    /\ main_formats args fs = inr fmts
    /\ forall generator item,
         In item source -> exists us, task generator item = inr us.
Proof.
  intros Hfiles.
  assert (Hfmt : exists fmts, main_formats args fs = inr fmts).
  { unfold main_formats. destruct (arg_formats args) as [p|] eqn:Hp.
    - assert (Hin : In p (files_read args)).
      { unfold files_read. rewrite Hp. apply in_or_app. right. now left. }
      specialize (Hfiles p Hin). destruct (fs p); [|congruence].
      cbn. eauto.
    - destruct (arg_format_list args) as [[|f l]|]; eauto. }
  destruct Hfmt as [fmts Hfmt].
  unfold main_source, files_read in *.
  destruct (arg_first_names args) as [pf|], (arg_last_names args) as [pl|].
  - pose proof (Hfiles pf (or_introl eq_refl)) as H1.
    pose proof (Hfiles pl (or_intror (or_introl eq_refl))) as H2.
    destruct (fs pf) as [lf|]; [|congruence].
    destruct (fs pl) as [ll|]; [|congruence].
    cbn [load_names]. eexists. exists fmts. split; [|split; [exact Hfmt|]].
    + apply f_equal, f_equal2; [reflexivity|].
      symmetry. etransitivity; [apply length_map|apply length_prod].
    + intros generator item Hin.
      apply in_map_iff in Hin. destruct Hin as ([f l] & <- & Hin).
      apply in_prod_iff in Hin. destruct Hin as [Hf Hl]. cbn [fst snd].
      apply process_single_task_pair; eapply load_names_nonempty; eassumption.
  - pose proof (Hfiles _ (or_introl eq_refl)) as H1.
    destruct (fs (arg_input args)); [|congruence].
    cbn [load_names]. eexists. exists fmts. split; [|split; [exact Hfmt|]].
    + apply f_equal, f_equal2; [reflexivity|].
      now rewrite !length_map.
    + intros generator item Hin.
      apply in_map_iff in Hin. destruct Hin as (n & <- & _).
      apply process_single_task_name.
  - pose proof (Hfiles _ (or_introl eq_refl)) as H1.
    destruct (fs (arg_input args)); [|congruence].
    cbn [load_names]. eexists. exists fmts. split; [|split; [exact Hfmt|]].
    + apply f_equal, f_equal2; [reflexivity|].
      now rewrite !length_map.
    + intros generator item Hin.
      apply in_map_iff in Hin. destruct Hin as (n & <- & _).
      apply process_single_task_name.
  - pose proof (Hfiles _ (or_introl eq_refl)) as H1.
    destruct (fs (arg_input args)); [|congruence].
    cbn [load_names]. eexists. exists fmts. split; [|split; [exact Hfmt|]].
    + apply f_equal, f_equal2; [reflexivity|].
      now rewrite !length_map.
    + intros generator item Hin.
      apply in_map_iff in Hin. destruct Hin as (n & <- & _).
      apply process_single_task_name.
Qed.

(** X15.  A missing file makes [main] end with an exception of its own clean-up:
    [load_names] or [load_formats] raises before [out_handle] is assigned,
    the handler reports it, and the [finally] clause then reads the
    unassigned variable.  This happens exactly when one of the files [main]
    reads is missing (and [-lf] is not given). *)
Theorem main_missing_file {bar : Tqdm} (args : Args) (fs : string -> option (list string))
    (as_completed : nat -> list WorkItem -> list WorkItem) :
  arg_list_formats args = false ->
  (exists p, In p (files_read args) /\ fs p = None)
  <-> main args fs as_completed = Crashed FileNotFoundError.
Proof.
  intros Hlf. split.
  - intros (p & Hin & Hp). unfold main. rewrite Hlf.
    destruct (main_source args fs) as [[]|[source n]] eqn:Hs; [reflexivity|].
    destruct (main_formats args fs) as [[]|fmts] eqn:Hf; [reflexivity|].
    exfalso. unfold main_source, main_formats, files_read in *.
    apply in_app_or in Hin. destruct Hin as [Hin|Hin].
    + destruct (arg_first_names args) as [pf|], (arg_last_names args) as [pl|];
        cbn [In] in Hin;
        repeat match goal with
               | H : _ \/ _ |- _ => destruct H
               | H : False |- _ => destruct H
               end; subst;
        try (rewrite Hp in Hs; discriminate Hs).
      destruct (fs pf); [|discriminate Hs].
      rewrite Hp in Hs. discriminate Hs.
    + destruct (arg_formats args) as [q|]; [|destruct Hin].
      destruct Hin as [<-|[]]. rewrite Hp in Hf. discriminate Hf.
  - intros Hm.
    destruct (List.Exists_dec (fun p => fs p = None) (files_read args)) as [H|H].
    + intros p. destruct (fs p); [right; discriminate|now left].
    + apply Exists_exists in H. exact H.
    + exfalso.
      destruct (main_inputs_present args fs) as (source & fmts & Hs & Hf & _).
      { intros p Hin Hp. apply H, Exists_exists. eauto. }
      unfold main in Hm. rewrite Hlf, Hs, Hf in Hm.
      destruct (arg_threads args <=? 0)%Z; discriminate Hm.
Qed.

Lemma main_missing_file_witness :
  main demo_args (fun _ => None) demo_order = Crashed FileNotFoundError.
Proof.
  apply (main_missing_file demo_args (fun _ => None) demo_order).
  - reflexivity.
  - exists "fn.txt". split; [now left|reflexivity].
Defined.

(** X16.  With all its files present and a positive number of threads, [main]
    runs the pipeline to its end on a source of the announced size; no task
    raises, so no error is reported.  In particular the pairs of the
    product of two loaded lists never have an empty component.  With [-o]
    the progress counter ends at the announced size; without it the bar is
    disabled, and its counter stays 0 unless the class in use is the
    fallback of the source. *)
Theorem main_run_has_no_failures {bar : Tqdm} (args : Args)
    (fs : string -> option (list string))
    (as_completed : nat -> list WorkItem -> list WorkItem) :
  arg_list_formats args = false ->
  (forall p, In p (files_read args) -> fs p <> None) ->
  (0 < arg_threads args)%Z ->
  (forall r chunk, Permutation (as_completed r chunk) chunk) ->
  exists generator source final,
    main args fs as_completed = Done generator source (length source) final
    /\ case_sensitive generator = arg_case_sensitive args
    /\ finished final = true
    /\ Permutation (collected final) source
    /\ stderr (locals final) = []
    /\ pbar_n (locals final)
       = match arg_output args with
         | Some _ => length source
         | None => if honours_disable then 0 else length source
         end.
Proof.
  intros Hlf Hfiles Ht Hperm.
  destruct (main_inputs_present args fs Hfiles) as (source & fmts & Hs & Hf & Hok).
  unfold main. rewrite Hlf, Hs, Hf.
  destruct (Z.leb_spec (arg_threads args) 0) as [Hle|_]; [lia|].
  assert (Hw : 0 < Z.to_nat (arg_threads args)) by lia.
  set (generator := init (Some (arg_case_sensitive args)) fmts).
  set (out := match arg_output args with Some _ => Some [] | None => None end).
  set (final := final_state generator (Z.to_nat (arg_threads args))
                  as_completed source out).
  exists generator, source, final.
  destruct (final_collected generator _ as_completed source Hw Hperm out)
    as [Hc Hl]. fold final in Hc, Hl.
  destruct (write_rest_keeps
              (fold_left (collect generator) (collected final) (init_vars out)))
    as (_ & _ & W1 & _ & W2 & _).
  repeat split; auto.
  - apply (final_finished generator _ as_completed source Hw Hperm out).
  - rewrite Hl, W1, fold_collect_stderr. cbn [init_vars stderr app].
    apply failures_nil. intros item Hin.
    apply Hok. eapply Permutation_in; eassumption.
  - rewrite Hl, W2, fold_collect_pbar. cbn [init_vars pbar_n pbar_disable].
    rewrite (Permutation_length Hc). unfold out.
    destruct (arg_output args); cbn [show_bar negb];
      [now rewrite andb_false_r|now rewrite andb_true_r].
Qed.

Lemma main_run_has_no_failures_witness :
  exists generator source final,
    main demo_args demo_fs demo_order
    = Done generator source (length source) final
    /\ stderr (locals final) = [].
Proof.
  destruct (main_run_has_no_failures demo_args demo_fs demo_order)
    as (g & src & final & Hm & _ & _ & _ & He & _).
  - reflexivity.
  - intros p [<-|[<-|[]]]; discriminate.
  - reflexivity.
  - exact demo_order_perm.
  - exists g, src, final. split; [exact Hm|exact He].
Defined.

(** X17.  When [--formats] is given and the file exists, the patterns
    [main] passes to the generator are the lines of the file that are not
    blank and do not start with [#], stripped and in their order: the
    patterns given with [-f] play no part, whatever they are.  When every
    line of the file is blank or starts with [#] this is the empty list,
    for which the generator takes the default patterns. *)
Theorem main_formats_fallback (args : Args)
    (fs : string -> option (list string)) (path : string)
    (lines : list string) :
  arg_formats args = Some path ->
  fs path = Some lines ->
  let loaded :=
    map strip (filter (fun line => nonempty (strip line)
                                   && negb (startswith_hash line)) lines) in
  main_formats args fs = inr (Some loaded)
  /\ (forall args',
        arg_formats args' = Some path ->
        main_formats args' fs = main_formats args fs)
  /\ (loaded <> [] ->
        formats (init (Some (arg_case_sensitive args)) (Some loaded)) = loaded)
  /\ (Forall (fun line => nonempty (strip line) = false
                          \/ startswith_hash line = true) lines ->
        loaded = []
        /\ formats (init (Some (arg_case_sensitive args)) (Some loaded))
           = DEFAULT_FORMATS).
Proof.
  intros Hp Hfs loaded.
  assert (Hm : forall a, arg_formats a = Some path ->
                         main_formats a fs = inr (Some loaded)).
  { intros a Ha. unfold main_formats, load_formats. now rewrite Ha, Hfs. }
  split; [now apply Hm|]. split; [|split].
  - intros args' Ha. now rewrite !Hm.
  - intros Hne. destruct loaded; [congruence|reflexivity].
  - intros Hl.
    assert (E : loaded = []).
    { unfold loaded. clear Hfs loaded Hm.
      induction Hl as [|line l H Hl IH]; [reflexivity|].
      cbn [filter].
      destruct H as [-> | ->]; [exact IH|].
      rewrite andb_false_r. exact IH. }
    split; [exact E|]. now rewrite E.
Qed.

Lemma main_formats_fallback_witness :
  main_formats
    (mk_args "users.txt" None (Some ["first"]) (Some "f.txt") 4%Z
             None None false false)
    (fun _ => Some ["# patterns"; " last.first "; "   "]%string)
  = inr (Some ["last.first"]).
Proof.
  refine (proj1 (main_formats_fallback
            (mk_args "users.txt" None (Some ["first"]) (Some "f.txt") 4%Z
                     None None false false)
            (fun _ => Some ["# patterns"; " last.first "; "   "]%string)
            "f.txt" ["# patterns"; " last.first "; "   "]%string _ _));
    reflexivity.
Defined.

(** X18.  With all files present and a number of threads that is zero or
    negative, the executor refuses to start: [main] catches the error and
    returns; an output file, when one is given, has been opened and is left
    empty. *)
Theorem main_without_threads {bar : Tqdm} (args : Args)
    (fs : string -> option (list string))
    (as_completed : nat -> list WorkItem -> list WorkItem) :
  arg_list_formats args = false ->
  (forall p, In p (files_read args) -> fs p <> None) ->
  (arg_threads args <= 0)%Z ->
  main args fs as_completed
  = Aborted ValueError (match arg_output args with
                        | Some _ => Some []
                        | None => None
                        end).
Proof.
  intros Hlf Hfiles Ht.
  destruct (main_inputs_present args fs Hfiles) as (source & fmts & Hs & Hf & _).
  unfold main. rewrite Hlf, Hs, Hf.
  destruct (Z.leb_spec (arg_threads args) 0) as [_|H]; [reflexivity|lia].
Qed.

Lemma main_without_threads_witness :
  main (mk_args "users.txt" (Some "out.txt") None None 0%Z None None false false)
       (fun _ => Some ["Ada Lovelace"]) demo_order
  = Aborted ValueError (Some []).
Proof.
  apply (main_without_threads
           (mk_args "users.txt" (Some "out.txt") None None 0%Z None None
                    false false)
           (fun _ => Some ["Ada Lovelace"]) demo_order).
  - reflexivity.
  - intros p _. discriminate.
  - reflexivity.
Defined.

(** ** Which patterns are numeric, and what a run does with its items *)

Lemma at_dollar_iff (nl : string) :
  Re.at_dollar nl = true <-> nl = EmptyString \/ nl = newline.
Proof.
  unfold newline. split.
  - destruct nl as [|c [|d nl]]; cbn; auto; [|discriminate].
    intros H. apply Ascii.eqb_eq in H. subst. now right.
  - intros [->| ->]; reflexivity.
Qed.

(** X8.  [re_numeric] matches a pattern exactly when the pattern is a keyword,
    then optionally digits in brackets, then digits, and then nothing or
    one newline; the groups are the keyword, the bracketed digits and the
    trailing digits.  Any other pattern is evaluated by ordinary
    substitution. *)
Theorem re_numeric_match_iff (s kw : string) (br : option string)
    (num : string) :
  Re.re_numeric_match s = Some (kw, br, num)
  <-> In kw keywords
      /\ is_digits num = true
      /\ (forall b, br = Some b -> is_digits b = true)
      /\ exists nl,
           (nl = EmptyString \/ nl = newline)
           /\ s = (kw ++ bracket_text br ++ num ++ nl)%string.
Proof.
  split.
  - intros H. apply re_numeric_match_shape in H.
    destruct H as (Hk & Hn & Hb & nl & Hnl & Hs).
    repeat split; auto. exists nl. split; [now apply at_dollar_iff|exact Hs].
  - intros (Hk & Hn & Hb & nl & Hnl & ->).
    apply re_numeric_match_form; auto. now apply at_dollar_iff.
Qed.

(** X13.  No item is lost or taken twice: at every point of a run the items
    collected, those in flight and those still in the source are together
    the items of the source. *)
Theorem items_conserved {bar : Tqdm} (generator : UsernameGenerator) (workers : nat)
    (as_completed : nat -> list WorkItem -> list WorkItem)
    (source : list WorkItem) (out : option (list string)) (n : nat) :
  0 < workers ->
  (forall r chunk, Permutation (as_completed r chunk) chunk) ->
  let s := run generator workers as_completed source out n in
  Permutation (collected s ++ futures s ++ iterator s) source.
Proof.
  intros Hw Hperm s.
  destruct (inv_run generator workers as_completed source Hw Hperm out n)
    as ((pulled & Hsrc & Hp) & _).
  fold s in Hsrc, Hp.
  apply Permutation_trans with (pulled ++ iterator s).
  - rewrite app_assoc. now apply Permutation_app_tail.
  - now rewrite <- Hsrc.
Qed.

Lemma items_conserved_witness :
  Permutation
    (collected (run (init None None) 1 demo_order demo_source None 2)
     ++ futures (run (init None None) 1 demo_order demo_source None 2)
     ++ iterator (run (init None None) 1 demo_order demo_source None 2))
    demo_source.
Proof.
  apply (items_conserved (init None None) 1 demo_order demo_source None 2).
  - lia.
  - exact demo_order_perm.
Defined.

(** ** A spliced value that spells a keyword *)





